(** * nats-operator: controller supervisor, watch consumer and pod/service templating

    A shallow embedding of
    - [pkg/util/k8sutil] (pod and service templates, [CreateAndWaitPod]) and
    - [pkg/controller/controller.go] ([Config.validate], [New], [pollEvent],
      [Controller.monitor], [Controller.Run]),
    together with the properties the specification states about them.

    Go values are modelled as follows.
    - [string] is [string]; [int] is [Z]; [map[string]string] is an
      optional [gmap string string], [None] being the nil map.
    - [error] values are the inductive [error]; [err == io.EOF] is
      constructor equality.
    - Pointers to clusters and channels are allocation indices, so that
      "the same runtime" and "a new runtime" can be told apart.
    - Calls that leave the process (the orchestrator API, the [cluster]
      package) are recorded in traces; their answers come from a script. *)

From stdpp Require Import base strings gmap list pretty.
From Stdlib Require Import ZArith Lia Ascii.

Local Open Scope Z_scope.

(** ** Go preliminaries *)

Module Go.

(** Arguments of [fmt.Sprintf] as they occur in the sources: strings (also
    the text of an error), integers and byte slices. *)
Inductive fmtarg :=
| ArgS (s : string)
| ArgD (n : Z)
| ArgB (b : string).

(** A byte slice under [%v]: the bytes in decimal, separated by spaces. *)
Fixpoint fmt_bytes (b : string) : string :=
  match b with
  | EmptyString => EmptyString
  | String c EmptyString => pretty (N_of_ascii c)
  | String c rest => pretty (N_of_ascii c) +:+ " " +:+ fmt_bytes rest
  end.

(** One verb applied to one operand. *)
Definition fmt_verb (verb : ascii) (a : fmtarg) : string :=
  match a with
  | ArgS s =>
      if decide (verb = "d"%char) then "%!d(string=" +:+ s +:+ ")" else s
  | ArgD n =>
      if decide (verb = "s"%char) then "%!s(int=" +:+ pretty n +:+ ")"
      else pretty n
  | ArgB b =>
      if decide (verb = "s"%char) then b else "[" +:+ fmt_bytes b +:+ "]"
  end.

(** [fmt.Sprintf] for the verbs [%s], [%v], [%+v], [%d] and [%%]. *)
Fixpoint Sprintf (format : string) (args : list fmtarg) : string :=
  match format with
  | EmptyString => EmptyString
  | String c rest =>
      if decide (c = "%"%char) then
        match rest with
        | EmptyString => "%!(NOVERB)"
        | String v rest' =>
            if decide (v = "%"%char) then String "%" (Sprintf rest' args)
            else if decide (v = "+"%char) then
              match rest' with
              | EmptyString => "%!(NOVERB)"
              | String v' rest'' =>
                  match args with
                  | [] => "%!" +:+ String v' "(MISSING)" +:+ Sprintf rest'' []
                  | a :: args' => fmt_verb v' a +:+ Sprintf rest'' args'
                  end
              end
            else
              match args with
              | [] => "%!" +:+ String v "(MISSING)" +:+ Sprintf rest' []
              | a :: args' => fmt_verb v a +:+ Sprintf rest' args'
              end
        end
      else String c (Sprintf rest args)
  end.

(** The [error] values that flow through the modelled code. *)
Inductive error :=
| EOF                                   (* io.EOF *)
| ErrVersionOutdated                    (* controller.ErrVersionOutdated *)
| ErrorString (msg : string)            (* errors.New, fmt.Errorf *)
| StatusError (code : Z) (reason : string) (message : string)
                                        (* *apierrors.StatusError *)
| ErrWaitTimeout.                       (* wait.ErrWaitTimeout *)

Definition Error (e : error) : string :=
  match e with
  | EOF => "EOF"
  | ErrVersionOutdated => "Requested version is outdated."
  | ErrorString msg => msg
  | StatusError _ _ message => message
  | ErrWaitTimeout => "timed out waiting for the condition"
  end.

Definition Errorf (format : string) (args : list fmtarg) : error :=
  ErrorString (Sprintf format args).

#[global] Instance error_eq_dec : EqDecision error.
Proof. solve_decision. Defined.

(** What a call does: it returns, or it panics with a value. *)
Inductive outcome (A : Type) :=
| Ret (a : A)
| Panic (e : error).
Arguments Ret {A} a.
Arguments Panic {A} e.

#[global] Instance outcome_ret : MRet outcome := λ A a, Ret a.
#[global] Instance outcome_bind : MBind outcome := λ A B f m,
  match m with
  | Ret a => f a
  | Panic e => Panic e
  end.

(** [map[string]string]; [None] is the nil map. *)
Definition gomap := option (gmap string string).

Definition len (m : gomap) : nat :=
  match m with
  | None => 0%nat
  | Some m => size m
  end.

(** [m[k]]: the zero value when the key (or the map) is missing. *)
Definition index (m : gomap) (k : string) : string :=
  match m with
  | None => EmptyString
  | Some m => default EmptyString (m !! k)
  end.

(** [m[k] = v]: a run-time panic on the nil map. *)
Definition assign (m : gomap) (k v : string) : outcome gomap :=
  match m with
  | None => Panic (ErrorString "assignment to entry in nil map")
  | Some m => Ret (Some (<[k := v]> m))
  end.

(** [int32(n)] *)
Definition int32 (n : Z) : Z := (n + 2 ^ 31) `mod` 2 ^ 32 - 2 ^ 31.

End Go.

Export Go.

(** ** The orchestrator's object types ([k8s.io/kubernetes/pkg/api]) *)

Module api.

Record ObjectMeta := {
  Name : string;
  GenerateName : string;
  ResourceVersion : string;
  Labels : gomap;
  Annotations : gomap;
}.

Definition ClusterIPNone : string := "None".
Definition ProtocolTCP : string := "TCP".
Definition RestartPolicyNever : string := "Never".

(** [intstr.IntOrString], and [intstr.FromInt]. *)
Inductive IntOrString :=
| IntVal (n : Z)
| StrVal (s : string).

Definition FromInt (val : Z) : IntOrString := IntVal (int32 val).

Record ServicePort := {
  PortName : string;
  Port : Z;
  TargetPort : IntOrString;
  Protocol : string;
}.

Record ServiceSpec := {
  ClusterIP : string;
  Ports : list ServicePort;
  Selector : gomap;
}.

Record Service := {
  ServiceMeta : ObjectMeta;
  ServiceSpec_ : ServiceSpec;
}.

Record Container := {
  Image : string;
  Args : list string;
}.

(** The fields of [api.PodSpec] the templates write. [AntiAffinity] holds
    the placement rule: [Some c] asks that no node be shared with another
    pod of cluster [c]. *)
Record PodSpec := {
  Containers : list Container;
  RestartPolicy : string;
  NodeSelector : gomap;
  AntiAffinity : option string;
}.

Record Pod := {
  Meta : ObjectMeta;
  Spec : PodSpec;
}.

Definition set_Annotations (p : Pod) (a : gomap) : Pod :=
  {| Meta := {| Name := Name (Meta p);
                GenerateName := GenerateName (Meta p);
                ResourceVersion := ResourceVersion (Meta p);
                Labels := Labels (Meta p);
                Annotations := a |};
     Spec := Spec p |}.

Definition set_NodeSelector (p : Pod) (ns : gomap) : Pod :=
  {| Meta := Meta p;
     Spec := {| Containers := Containers (Spec p);
                RestartPolicy := RestartPolicy (Spec p);
                NodeSelector := ns;
                AntiAffinity := AntiAffinity (Spec p) |} |}.

Definition set_AntiAffinity (p : Pod) (r : option string) : Pod :=
  {| Meta := Meta p;
     Spec := {| Containers := Containers (Spec p);
                RestartPolicy := RestartPolicy (Spec p);
                NodeSelector := NodeSelector (Spec p);
                AntiAffinity := r |} |}.

End api.

(** ** The declared resource ([pkg/spec]) *)

Module spec.

(** Modelled from the spec: the type [ClusterSpec] of package [spec] is not
    among the sources; its fields are those of section 3 of the
    specification. *)
Record ClusterSpec := {
  Size : Z;
  Version : string;
  Paused : bool;
  AntiAffinity : bool;
  NodeSelector : gomap;
}.

(** Modelled from the spec: [NatsCluster] (the spec's [ClusterRef]), the
    declared resource as observed. *)
Record NatsCluster := {
  ObjectMeta : api.ObjectMeta;
  Spec : ClusterSpec;
}.

End spec.

(** ** Pod and service templating ([pkg/util/k8sutil]) *)

Module k8sutil.

Section Templates.

(** The port numbers of package [constants], which is not among the
    sources. *)
Variables ClientPort ClusterPort MonitoringPort : Z.

Definition versionAnnotationKey : string := "nats.version".

Definition GetNATSVersion (pod : api.Pod) : string :=
  index (api.Annotations (api.Meta pod)) versionAnnotationKey.

Definition SetNATSVersion (pod : api.Pod) (version : string) : outcome api.Pod :=
  a ← assign (api.Annotations (api.Meta pod)) versionAnnotationKey version;
  mret (api.set_Annotations pod a).

Definition GetPodNames (pods : list api.Pod) : list string :=
  foldl (λ res p, (res ++ [api.Name (api.Meta p)])%list) [] pods.

Definition MakeNATSImage (version : string) : string :=
  Sprintf "nats:%v" [ArgS version].

Definition PodWithNodeSelector (p : api.Pod) (ns : gomap) : api.Pod :=
  api.set_NodeSelector p ns.

Definition makeServiceSpec (clusterName : string) : api.Service :=
  let labels : gomap :=
    Some {[ "app" := "nats"; "nats_cluster" := clusterName ]} in
  {| api.ServiceMeta :=
       {| api.Name := clusterName;
          api.GenerateName := EmptyString;
          api.ResourceVersion := EmptyString;
          api.Labels := labels;
          api.Annotations := None |};
     api.ServiceSpec_ :=
       {| api.ClusterIP := api.ClusterIPNone;
          api.Ports :=
            [ {| api.PortName := "client";
                 api.Port := ClientPort;
                 api.TargetPort := api.FromInt ClientPort;
                 api.Protocol := api.ProtocolTCP |} ];
          api.Selector := labels |} |}.

Definition makeMgmtServiceSpec (clusterName : string) : api.Service :=
  let labels : gomap :=
    Some {[ "app" := "nats-mgmt"; "nats_cluster" := clusterName ]} in
  {| api.ServiceMeta :=
       {| api.Name := clusterName +:+ "-mgmt";
          api.GenerateName := EmptyString;
          api.ResourceVersion := EmptyString;
          api.Labels := labels;
          api.Annotations := None |};
     api.ServiceSpec_ :=
       {| api.ClusterIP := api.ClusterIPNone;
          api.Ports :=
            [ {| api.PortName := "cluster";
                 api.Port := ClusterPort;
                 api.TargetPort := api.FromInt ClusterPort;
                 api.Protocol := api.ProtocolTCP |};
              {| api.PortName := "monitoring";
                 api.Port := MonitoringPort;
                 api.TargetPort := api.FromInt MonitoringPort;
                 api.Protocol := api.ProtocolTCP |} ];
          api.Selector := labels |} |}.

(** Modelled from the spec: [natsPodContainer] is not among the sources.
    Section 6: "One container [nats:<version>] ... args ...": the container
    runs the image of [MakeNATSImage] with the arguments it is given. *)
Definition natsPodContainer (args : list string) (version : string) : api.Container :=
  {| api.Image := MakeNATSImage version;
     api.Args := args |}.

(** Modelled from the spec: [podWithAntiAffinity] is not among the sources.
    Section 4.E: "When [AntiAffinity], [MakePodSpec] emits placement rules
    requesting one peer per node"; glossary: "no two pods of the same
    cluster share a node". It adds that rule and nothing else. *)
Definition podWithAntiAffinity (pod : api.Pod) (clusterName : string) : api.Pod :=
  api.set_AntiAffinity pod (Some clusterName).

Definition MakePodSpec (clusterName : string) (cs : spec.ClusterSpec) : outcome api.Pod :=
  let args :=
    [ Sprintf "--cluster=nats://0.0.0.0:%d" [ArgD ClusterPort];
      Sprintf "--http_port=%d" [ArgD MonitoringPort];
      Sprintf "--routes=nats://%s:%d" [ArgS (clusterName +:+ "-mgmt"); ArgD ClusterPort] ] in
  let pod :=
    {| api.Meta :=
         {| api.Name := EmptyString;
            api.GenerateName := clusterName +:+ "-";
            api.ResourceVersion := EmptyString;
            api.Labels := Some {[ "app" := "nats"; "nats_cluster" := clusterName ]};
            api.Annotations := Some ∅ |};
       api.Spec :=
         {| api.Containers := [ natsPodContainer args (spec.Version cs) ];
            api.RestartPolicy := api.RestartPolicyNever;
            api.NodeSelector := None;
            api.AntiAffinity := None |} |} in
  pod ← SetNATSVersion pod (spec.Version cs);
  let pod := if spec.AntiAffinity cs then podWithAntiAffinity pod clusterName else pod in
  let pod :=
    if decide (len (spec.NodeSelector cs) ≠ 0%nat)
    then PodWithNodeSelector pod (spec.NodeSelector cs)
    else pod in
  mret pod.

End Templates.

(** *** The API client, as far as [CreateAndWaitPod] uses it

    The orchestrator keeps the pods of each namespace under their names.
    The calls made through the client are logged in order. What the
    orchestrator answers is not decided by this code and comes from
    [Env]. *)

Inductive call :=
| PodsCreate (ns : string) (pod : api.Pod)
| PodsWatch (ns : string) (name : string)
| PodsDelete (ns : string) (name : string)
| WatchUntil (timeout : Z).

Record Server := {
  pods : gmap (string * string) api.Pod;
  calls : list call;
}.

Record Env := {
  (* Pods(ns).Create: the stored pod, its name assigned, or an error *)
  created : string → api.Pod → api.Pod + error;
  (* Pods(ns).Watch *)
  watching : string → string → option error;
  (* watch.Until with unversioned.PodRunning: nil once the pod runs,
     wait.ErrWaitTimeout at the deadline, or the error of the watch *)
  until : Z → option error;
}.

Definition kube (A : Type) : Type := Server → A * Server.

#[global] Instance kube_ret : MRet kube := λ A a s, (a, s).
#[global] Instance kube_bind : MBind kube := λ A B f m s,
  let '(a, s') := m s in f a s'.

Definition update (f : Server → Server) : kube unit := λ s, (tt, f s).

Definition log (c : call) : kube unit :=
  update (λ s, {| pods := pods s; calls := (calls s ++ [c])%list |}).

Definition Create (env : Env) (ns : string) (pod : api.Pod) : kube (api.Pod + error) :=
  _ ← log (PodsCreate ns pod);
  match created env ns pod with
  | inl createdPod =>
      _ ← update (λ s,
        {| pods := <[(ns, api.Name (api.Meta createdPod)) := createdPod]> (pods s);
           calls := calls s |});
      mret (inl createdPod)
  | inr err => mret (inr err)
  end.

Definition Watch (env : Env) (ns name : string) : kube (option error) :=
  _ ← log (PodsWatch ns name);
  mret (watching env ns name).

Definition Until (env : Env) (timeout : Z) : kube (option error) :=
  _ ← log (WatchUntil timeout);
  mret (until env timeout).

Definition Delete (ns name : string) : kube unit :=
  _ ← log (PodsDelete ns name);
  update (λ s, {| pods := delete (ns, name) (pods s); calls := calls s |}).

(** [CreateAndWaitPod] returns [None] for a nil error. *)
Definition CreateAndWaitPod (env : Env) (ns : string) (pod : api.Pod) (timeout : Z)
  : kube (option error) :=
  r ← Create env ns pod;
  match r with
  | inr err => mret (Some err)
  | inl createdPod =>
      err ← Watch env ns (api.Name (api.Meta createdPod));
      match err with
      | Some err => mret (Some err)
      | None =>
          err ← Until env timeout;
          mret err
      end
  end.

Definition IsKubernetesResourceAlreadyExistError (err : error) : bool :=
  match err with
  | StatusError code reason _ =>
      bool_decide (code = 409 ∧ reason = "AlreadyExists")
  | _ => false
  end.

Definition IsKubernetesResourceNotFoundError (err : error) : bool :=
  match err with
  | StatusError code reason _ =>
      bool_decide (code = 404 ∧ reason = "NotFound")
  | _ => false
  end.

(** The address [ListClusters] asks for. *)
Definition ListClusters_url (host ns : string) : string :=
  Sprintf "%s/apis/nats.io/v1/namespaces/%s/natsclusters" [ArgS host; ArgS ns].

(** The address [WatchClusters] asks for. *)
Definition WatchClusters_url (host ns resourceVersion : string) : string :=
  Sprintf "%s/apis/nats.io/v1/namespaces/%s/natsclusters?watch=true&resourceVersion=%s"
    [ArgS host; ArgS ns; ArgS resourceVersion].

(** The label set from which [PodListOpt] builds its selector. *)
Definition PodListOpt (clusterName : string) : gomap :=
  Some {[ "app" := "nats"; "nats_cluster" := clusterName ]}.

(** *** Waiting for the resource definition

    An answer to [ListClusters]: the status line of the response, or the
    error of the transport. *)
Record HTTPResponse := {
  StatusCode : Z;
  Status : string;
}.

Inductive readyCall :=
| RList (url : string)           (* ListClusters *)
| RCloseBody.                    (* the deferred resp.Body.Close() *)

(** The condition [WaitTPRReady] polls. *)
Definition tprReadyCondition (host ns : string) (answer : HTTPResponse + error)
  : list readyCall * (bool * option error) :=
  let url := ListClusters_url host ns in
  match answer with
  | inr err => ([RList url], (false, Some err))
  | inl resp =>
      ([RList url; RCloseBody],
       if decide (StatusCode resp = 200) then (true, None)
       else if decide (StatusCode resp = 404) then (false, None)
       else (false, Some (Errorf "invalid status code: %v" [ArgS (Status resp)])))
  end.

(** [WaitTPRReady]: [wait.Poll] runs the condition once per interval until
    it reports done or an error; the answers are those of the attempts
    made before the timeout, after which [wait.ErrWaitTimeout] is
    returned. *)
Fixpoint WaitTPRReady (host ns : string) (answers : list (HTTPResponse + error))
  : list readyCall * option error :=
  match answers with
  | [] => ([], Some ErrWaitTimeout)
  | answer :: answers' =>
      let '(calls, (done, err)) := tprReadyCondition host ns answer in
      match err with
      | Some err => (calls, Some err)
      | None =>
          if done then (calls, None)
          else
            let '(calls', r) := WaitTPRReady host ns answers' in
            ((calls ++ calls')%list, r)
      end
  end.

(** *** Services

    The calls made on [kclient.Services(ns)]; what the orchestrator
    answers is an input. *)
Inductive serviceCall :=
| ServicesCreate (ns : string) (svc : api.Service)
| ServicesDelete (ns : string) (name : string).

Section Services.
Variables ClientPort ClusterPort MonitoringPort : Z.

Definition CreateMgmtService (answer : api.Service + error) (clusterName ns : string)
  : list serviceCall * (api.Service + error) :=
  let svc := makeMgmtServiceSpec ClusterPort MonitoringPort clusterName in
  ([ServicesCreate ns svc],
   match answer with
   | inr err => inr err
   | inl retSvc => inl retSvc
   end).

Definition DeleteMgmtService (answer : option error) (clusterName ns : string)
  : list serviceCall * option error :=
  let svc := makeMgmtServiceSpec ClusterPort MonitoringPort clusterName in
  ([ServicesDelete ns (api.Name (api.ServiceMeta svc))], answer).

Definition CreateService (answer : api.Service + error) (clusterName ns : string)
  : list serviceCall * (api.Service + error) :=
  let svc := makeServiceSpec ClientPort clusterName in
  ([ServicesCreate ns svc],
   match answer with
   | inr err => inr err
   | inl retSvc => inl retSvc
   end).

Definition DeleteService (answer : option error) (clusterName ns : string)
  : list serviceCall * option error :=
  let svc := makeServiceSpec ClientPort clusterName in
  ([ServicesDelete ns (api.Name (api.ServiceMeta svc))], answer).

End Services.

(** *** Updating a pod *)

Inductive updateCall :=
| UPodsGet (ns : string) (name : string)
| UPodsUpdate (ns : string) (pod : api.Pod)
| UPodsWatch (ns : string) (name : string)
| UWatchUntil (timeout : Z)
| UPodsDelete (ns : string) (name : string).

Record UpdateEnv := {
  (* Pods(ns).Get: its error *)
  got : string → string → option error;
  (* Pods(ns).Update: the stored pod or an error *)
  updated : string → api.Pod → api.Pod + error;
  (* Pods(ns).Watch *)
  uwatching : string → string → option error;
  (* watch.Until with unversioned.PodRunning *)
  uuntil : Z → option error;
}.

(** [UpdateAndWaitPod] returns [None] for a nil error. *)
Definition UpdateAndWaitPod (env : UpdateEnv) (ns : string) (pod : api.Pod) (timeout : Z)
  : list updateCall * option error :=
  let name := api.Name (api.Meta pod) in
  match got env ns name with
  | Some err => ([UPodsGet ns name], Some err)
  | None =>
      match updated env ns pod with
      | inr err => ([UPodsGet ns name; UPodsUpdate ns pod], Some err)
      | inl updatedPod =>
          let updatedName := api.Name (api.Meta updatedPod) in
          match uwatching env ns updatedName with
          | Some err =>
              ([UPodsGet ns name; UPodsUpdate ns pod; UPodsWatch ns updatedName],
               Some err)
          | None =>
              ([UPodsGet ns name; UPodsUpdate ns pod; UPodsWatch ns updatedName;
                UWatchUntil timeout],
               uuntil env timeout)
          end
      end
  end.

End k8sutil.

(** ** Cluster runtimes ([pkg/cluster])

    Modelled from the spec: package [cluster] is not among the sources.
    Section 4.E: a reconciler is constructed from (name, namespace, initial
    spec, stop signal, completion latch); [Update] replaces the runtime's
    current spec; [Delete] halts it. A [*cluster.Cluster] is the index of
    the runtime in the list of all runtimes allocated so far. *)

Module cluster.

Record Cluster := {
  name : string;
  namespace : string;
  spec_ : spec.ClusterSpec;
  stopC : nat;
  restored : bool;
  halted : bool;
}.

Definition New (name ns : string) (cs : spec.ClusterSpec) (stopC : nat)
    (heap : list Cluster) : nat * list Cluster :=
  (length heap,
   (heap ++ [ {| name := name; namespace := ns; spec_ := cs; stopC := stopC;
                 restored := false; halted := false |} ])%list).

Definition Restore (name ns : string) (cs : spec.ClusterSpec) (stopC : nat)
    (heap : list Cluster) : nat * list Cluster :=
  (length heap,
   (heap ++ [ {| name := name; namespace := ns; spec_ := cs; stopC := stopC;
                 restored := true; halted := false |} ])%list).

Definition Update (p : nat) (cs : spec.ClusterSpec) (heap : list Cluster) : list Cluster :=
  alter (λ c, {| name := name c; namespace := namespace c; spec_ := cs;
                 stopC := stopC c; restored := restored c; halted := halted c |}) p heap.

Definition Delete (p : nat) (heap : list Cluster) : list Cluster :=
  alter (λ c, {| name := name c; namespace := namespace c; spec_ := spec_ c;
                 stopC := stopC c; restored := restored c; halted := true |}) p heap.

End cluster.

(** ** The controller ([pkg/controller/controller.go]) *)

Module controller.

Definition tprName : string := "management.nats.io".

Definition supportedPVProvisioners : gset string :=
  {[ "kubernetes.io/gce-pd"; "kubernetes.io/aws-ebs" ]}.

(** [supportedPVProvisioners] as [%v] prints it. *)
Definition supportedPVProvisioners_text : string :=
  "map[kubernetes.io/aws-ebs:{} kubernetes.io/gce-pd:{}]".

(** seconds *)
Definition initRetryWaitTime : Z := 30.

Record rawEvent := {
  re_Type : string;
  re_Object : string;          (* json.RawMessage *)
}.

Record Event := {
  Type_ : string;
  Object : spec.NatsCluster;
}.

(** [unversionedAPI.Status], the fields read here. *)
Record Status := {
  Code : Z;
  Message : string;
}.

(** [NATSClusterList] is declared outside the sources; these are the fields
    [findAllClusters] reads. *)
Record NATSClusterList := {
  ListMeta_ResourceVersion : string;
  Items : list spec.NatsCluster;
}.

(** [encoding/json] on the three types that are decoded. *)
Class Json := {
  unmarshalStatus : string → Status + error;
  unmarshalNatsCluster : string → spec.NatsCluster + error;
  decodeClusterList : string → NATSClusterList + error;
}.

(** [Config]; the API client handle [KubeCli] carries no data of its own. *)
Record Config := {
  Namespace : string;
  MasterHost : string;
  PVProvisioner : string;
}.

Record Controller := {
  Config_ : Config;
  clusters : gmap string nat;      (* map[string]*cluster.Cluster *)
  stopChMap : gmap string nat;     (* map[string]chan struct{} *)
}.

(** [validate] returns [None] for a nil error. *)
Definition validate (c : Config) : option error :=
  if decide (PVProvisioner c ∈ supportedPVProvisioners) then None
  else Some (Errorf "persistent volume provisioner %s is not supported: options = %v"
               [ArgS (PVProvisioner c); ArgS supportedPVProvisioners_text]).

Definition New (cfg : Config) : outcome Controller :=
  match validate cfg with
  | Some err => Panic err
  | None => Ret {| Config_ := cfg; clusters := ∅; stopChMap := ∅ |}
  end.

(** The controller together with what its pointers point to: [chans]
    channels have been made, those in [closed] are closed, and [heap] holds
    the cluster runtimes. *)
Record Machine := {
  ctl : Controller;
  chans : nat;
  closed : gset nat;
  heap : list cluster.Cluster;
}.

Definition boot (c : Controller) : Machine :=
  {| ctl := c; chans := 0; closed := ∅; heap := [] |}.

(** The body of the event loop of [Run]. *)
Definition handleEvent (event : Event) (m : Machine) : Machine :=
  let c := ctl m in
  let clusterName := api.Name (spec.ObjectMeta (Object event)) in
  if decide (Type_ event = "ADDED") then
    let clusterSpec := spec.Spec (Object event) in
    let stopC := chans m in
    let stopChMap' := <[clusterName := stopC]> (stopChMap c) in
    let '(nc, heap') :=
      cluster.New clusterName (Namespace (Config_ c)) clusterSpec stopC (heap m) in
    {| ctl := {| Config_ := Config_ c;
                 clusters := <[clusterName := nc]> (clusters c);
                 stopChMap := stopChMap' |};
       chans := S (chans m); closed := closed m; heap := heap' |}
  else if decide (Type_ event = "MODIFIED") then
    match clusters c !! clusterName with
    | None => m
    | Some p =>
        {| ctl := c; chans := chans m; closed := closed m;
           heap := cluster.Update p (spec.Spec (Object event)) (heap m) |}
    end
  else if decide (Type_ event = "DELETED") then
    match clusters c !! clusterName with
    | None => m
    | Some p =>
        {| ctl := {| Config_ := Config_ c;
                     clusters := delete clusterName (clusters c);
                     stopChMap := stopChMap c |};
           chans := chans m; closed := closed m;
           heap := cluster.Delete p (heap m) |}
    end
  else m.

(** What [pollEvent] returns: exactly one of the three results is non-nil
    on every path. *)
Inductive polled :=
| PollEvent (ev : Event)
| PollStatus (st : Status)
| PollErr (err : error).

(** [pollEvent], given what [decoder.Decode(re)] returned. *)
Definition pollEvent `{Json} (decoded : rawEvent + error) : polled :=
  match decoded with
  | inr err =>
      if decide (err = EOF) then PollErr err
      else PollErr (Errorf "Failed to decode raw event: %+v" [ArgS (Error err)])
  | inl re =>
      if decide (re_Type re = "ERROR") then
        match unmarshalStatus (re_Object re) with
        | inr err =>
            PollErr (Errorf "Failed to decode %+v into unversioned.Status %+v"
                       [ArgB (re_Object re); ArgS (Error err)])
        | inl status => PollStatus status
        end
      else
        match unmarshalNatsCluster (re_Object re) with
        | inr err =>
            PollErr (Errorf "Failed to unmarshal NATSCluster object from data %+v: %+v"
                       [ArgB (re_Object re); ArgS (Error err)])
        | inl obj => PollEvent {| Type_ := re_Type re; Object := obj |}
        end
  end.

(** *** The watch goroutine

    A response body is the sequence of results its JSON decoder will
    produce; past its end the decoder reports [io.EOF]. The watch script
    lists what the successive calls of [k8sutil.WatchClusters] return. *)

Record Response := {
  StatusCode : Z;
  Status_ : string;
  Body : list (rawEvent + error);
}.

Definition StatusGone : Z := 410.

(** What the goroutine of [monitor] does, in order. *)
Inductive action :=
| AWatchClusters (resourceVersion : string)
| AEOF                           (* io.EOF: "API server closed stream" *)
| ACloseBody                     (* resp.Body.Close() *)
| ADeliver (ev : Event)          (* eventCh <- ev *)
| ASendErr (err : error)         (* errCh <- err *)
| AFatalf (msg : string)         (* logger.Fatalf: the process exits *)
| ACloseEventCh.

(** How the inner loop over one body ends. *)
Inductive ending :=
| Break                          (* io.EOF: reopen the watch *)
| Return (err : error)           (* err sent on errCh, goroutine returns *)
| Exit (msg : string).           (* logger.Fatalf *)

(** How far a run gets. *)
Inductive stop :=
| Errored (err : error)          (* err was sent on errCh *)
| Exited (msg : string)          (* the process exited in logger.Fatalf *)
| Horizon.                       (* the script ended; the code is still running *)

(** A trace pairs each action with the value of [watchVersion] at the
    moment it happens. *)
Definition trace := list (string * action).

Section Watch.
Context `{Json}.

(** The inner [for] loop of [monitor] over one response body. *)
Fixpoint pollLoop (watchVersion : string) (body : list (rawEvent + error))
  : trace * string * ending :=
  match body with
  | [] =>
      (* Decode reports io.EOF, which pollEvent hands on *)
      ([(watchVersion, AEOF)], watchVersion, Break)
  | decoded :: body' =>
      match pollEvent decoded with
      | PollErr err =>
          if decide (err = EOF) then ([(watchVersion, AEOF)], watchVersion, Break)
          else ([(watchVersion, ASendErr err)], watchVersion, Return err)
      | PollStatus st =>
          if decide (Code st = StatusGone) then
            ([(watchVersion, ASendErr ErrVersionOutdated)], watchVersion,
             Return ErrVersionOutdated)
          else
            let msg := Sprintf "Unexpected status response from API server: %v"
                         [ArgS (Message st)] in
            ([(watchVersion, AFatalf msg)], watchVersion, Exit msg)
      | PollEvent ev =>
          let watchVersion := api.ResourceVersion (spec.ObjectMeta (Object ev)) in
          let '(t, v, e) := pollLoop watchVersion body' in
          ((watchVersion, ADeliver ev) :: t, v, e)
      end
  end.

(** The goroutine of [monitor]: the outer [for] loop, one iteration per
    answer of the script. [close(eventCh)] is deferred to its return. *)
Fixpoint monitor (watchVersion : string) (script : list (Response + error))
  : trace * stop :=
  match script with
  | [] => ([(watchVersion, AWatchClusters watchVersion)], Horizon)
  | answer :: script' =>
      let call := (watchVersion, AWatchClusters watchVersion) in
      match answer with
      | inr err =>
          ([call; (watchVersion, ASendErr err); (watchVersion, ACloseEventCh)],
           Errored err)
      | inl resp =>
          if decide (StatusCode resp ≠ 200) then
            let err := ErrorString ("Invalid status code: " +:+ Status_ resp) in
            ([call; (watchVersion, ACloseBody); (watchVersion, ASendErr err);
              (watchVersion, ACloseEventCh)],
             Errored err)
          else
            let '(t, v, e) := pollLoop watchVersion (Body resp) in
            match e with
            | Break =>
                let '(t', s) := monitor v script' in
                ((call :: t) ++ (v, ACloseBody) :: t', s)%list
            | Return err =>
                ((call :: t) ++ [(v, ACloseEventCh)], Errored err)%list
            | Exit msg => (call :: t, Exited msg)
            end
      end
  end.

(** The events sent on [eventCh], in order. *)
Definition delivered (t : trace) : list Event :=
  omap (λ '(_, a), match a with ADeliver ev => Some ev | _ => None end) t.

(** *** Initialisation *)

(** What the orchestrator answers during one attempt of [initResource]. *)
Record InitAnswer := {
  tprCreate : option error;        (* ThirdPartyResources().Create *)
  tprReady : option error;         (* k8sutil.WaitTPRReady *)
  listClusters : string + error;   (* k8sutil.ListClusters: the body *)
}.

Inductive initCall :=
| ICreateTPR
| IWaitTPRReady
| IListClusters
| ISleep (seconds : Z).

Definition createTPR (a : InitAnswer) : list initCall * option error :=
  match tprCreate a with
  | Some err => ([ICreateTPR], Some err)
  | None => ([ICreateTPR; IWaitTPRReady], tprReady a)
  end.

(** One turn of the loop of [findAllClusters]. *)
Definition restoreItem (m : Machine) (item : spec.NatsCluster) : Machine :=
  let c := ctl m in
  let itemName := api.Name (spec.ObjectMeta item) in
  let stopC := chans m in
  let stopChMap' := <[itemName := stopC]> (stopChMap c) in
  let '(nc, heap') :=
    cluster.Restore itemName (Namespace (Config_ c)) (spec.Spec item) stopC (heap m) in
  {| ctl := {| Config_ := Config_ c;
               clusters := <[itemName := nc]> (clusters c);
               stopChMap := stopChMap' |};
     chans := S (chans m); closed := closed m; heap := heap' |}.

Definition findAllClusters (a : InitAnswer) (m : Machine) : (string + error) * Machine :=
  match listClusters a with
  | inr err => (inr err, m)
  | inl body =>
      match decodeClusterList body with
      | inr err => (inr err, m)
      | inl list => (inl (ListMeta_ResourceVersion list), foldl restoreItem m (Items list))
      end
  end.

Definition initResource (a : InitAnswer) (m : Machine)
  : list initCall * (string + error) * Machine :=
  let watchVersion := "0" in
  let '(calls, err) := createTPR a in
  match err with
  | Some err =>
      if k8sutil.IsKubernetesResourceAlreadyExistError err then
        let '(r, m') := findAllClusters a m in
        ((calls ++ [IListClusters])%list, r, m')
      else
        (calls, inr (Errorf "Failed to create TPR: %v" [ArgS (Error err)]), m)
  | None => (calls, inl watchVersion, m)
  end.

(** The retry loop at the head of [Run], one attempt per answer. [None]:
    the answers ran out while it was still retrying. *)
Fixpoint initLoop (answers : list InitAnswer) (m : Machine)
  : list initCall * option string * Machine :=
  match answers with
  | [] => ([], None, m)
  | a :: answers' =>
      let '(calls, r, m') := initResource a m in
      match r with
      | inl watchVersion => (calls, Some watchVersion, m')
      | inr _ =>
          let '(calls', v, m'') := initLoop answers' m' in
          ((calls ++ ISleep initRetryWaitTime :: calls')%list, v, m'')
      end
  end.

(** *** Run

    [Run] starts two goroutines and then waits on [errCh]. The watch
    goroutine is [monitor]. The event loop receives each event from the
    unbuffered [eventCh] and handles it before it receives the next one:
    at the moment an event is delivered every event before it has been
    handled. Nothing joins the event loop, so how far the last delivered
    event has been handled when the watch goroutine goes on, when [Run]
    takes the error from [errCh], or when the process exits, is not
    determined. *)

Record World := {
  inits : list InitAnswer;
  watches : list (Response + error);
}.

(** The states the event loop passes through while it handles one event,
    one per statement that changes the controller; none when the event
    changes nothing. *)
Definition handleSteps (event : Event) (m : Machine) : list Machine :=
  let c := ctl m in
  let clusterName := api.Name (spec.ObjectMeta (Object event)) in
  if decide (Type_ event = "ADDED") then
    let clusterSpec := spec.Spec (Object event) in
    (* stopC := make(chan struct{}) *)
    let stopC := chans m in
    let m1 := {| ctl := c; chans := S (chans m); closed := closed m; heap := heap m |} in
    (* c.stopChMap[clusterName] = stopC *)
    let c2 := {| Config_ := Config_ c; clusters := clusters c;
                 stopChMap := <[clusterName := stopC]> (stopChMap c) |} in
    let m2 := {| ctl := c2; chans := S (chans m); closed := closed m; heap := heap m |} in
    (* nc := cluster.New(...) *)
    let '(nc, heap') :=
      cluster.New clusterName (Namespace (Config_ c)) clusterSpec stopC (heap m) in
    let m3 := {| ctl := c2; chans := S (chans m); closed := closed m; heap := heap' |} in
    (* c.clusters[clusterName] = nc *)
    let m4 := {| ctl := {| Config_ := Config_ c;
                           clusters := <[clusterName := nc]> (clusters c);
                           stopChMap := stopChMap c2 |};
                 chans := S (chans m); closed := closed m; heap := heap' |} in
    [m1; m2; m3; m4]
  else if decide (Type_ event = "MODIFIED") then
    match clusters c !! clusterName with
    | None => []
    | Some p =>
        [ {| ctl := c; chans := chans m; closed := closed m;
             heap := cluster.Update p (spec.Spec (Object event)) (heap m) |} ]
    end
  else if decide (Type_ event = "DELETED") then
    match clusters c !! clusterName with
    | None => []
    | Some p =>
        (* c.clusters[clusterName].Delete() *)
        let m1 := {| ctl := c; chans := chans m; closed := closed m;
                     heap := cluster.Delete p (heap m) |} in
        (* delete(c.clusters, clusterName) *)
        let m2 := {| ctl := {| Config_ := Config_ c;
                               clusters := delete clusterName (clusters c);
                               stopChMap := stopChMap c |};
                     chans := chans m; closed := closed m;
                     heap := cluster.Delete p (heap m) |} in
        [m1; m2]
    end
  else [].



(** *** The deferred function of [Run] *)

(** [close(stopC)] for every channel of [stopChMap], in the order of the
    map iteration. Closing a closed channel panics; that happens when a
    registered channel is closed already or is registered under two
    names. *)
Definition closeStopChannels (m : Machine) : outcome Machine :=
  if decide (NoDup (map_to_list (stopChMap (ctl m))).*2
             ∧ (map_img (stopChMap (ctl m)) : gset nat) ## closed m)
  then Ret {| ctl := ctl m; chans := chans m;
              closed := closed m ∪ map_img (stopChMap (ctl m));
              heap := heap m |}
  else Panic (ErrorString "close of closed channel").

(** Modelled from the spec: [c.waitCluster.Wait()] waits on the
    [sync.WaitGroup] that [Run] hands to every runtime it makes and that
    is counted inside package [cluster], which is not among the sources.
    Section 5: every runtime observes its stop signal; on stop its loop
    exits and the completion latch is released; section 4.E: [Delete]
    ends the loop as well. For runtimes that run until they are stopped,
    the wait ends when every runtime has been deleted or has had its
    stop channel closed. *)
Definition waitEnds (m : Machine) : bool :=
  bool_decide
    (Forall (λ r, cluster.halted r = true ∨ cluster.stopC r ∈ closed m) (heap m)).

Inductive deferredEnd :=
| Done (m : Machine)             (* Run returns *)
| Panics (e : error)             (* close of a closed channel *)
| WaitsForever.                  (* waitCluster.Wait() does not return *)

(** The deferred function, started in state [m]. *)
Definition deferred (m : Machine) : deferredEnd :=
  match closeStopChannels m with
  | Panic e => Panics e
  | Ret m' => if waitEnds m' then Done m' else WaitsForever
  end.


(** A runtime that nothing stops: [Delete] has not been called on it,
    and its stop channel is neither closed nor registered under any name,
    so that the loop of the deferred function does not close it. *)
Definition orphan (m : Machine) (r : cluster.Cluster) : bool :=
  negb (cluster.halted r)
  && bool_decide (cluster.stopC r ∉ closed m)
  && bool_decide (cluster.stopC r ∉ (map_img (stopChMap (ctl m)) : gset nat)).



(** *** Notions used in the statements *)

(** [ev.Object.ObjectMeta.ResourceVersion] *)
Definition eventVersion (ev : Event) : string :=
  api.ResourceVersion (spec.ObjectMeta (Object ev)).

(** The resource version of the last of [evs], or [v] when there is none. *)
Definition cursorAfter (v : string) (evs : list Event) : string :=
  default v (eventVersion <$> last evs).

(** Every entry of the trace carries the resource version of the last
    event delivered up to and including it, or [v] when there is none. *)
Fixpoint tracked (v : string) (t : trace) : Prop :=
  match t with
  | [] => True
  | (cur, a) :: t' =>
      cur = match a with
            | ADeliver ev => eventVersion ev
            | _ => v
            end
      ∧ tracked cur t'
  end.

(** Every end of stream in the trace is followed by the release of the
    body and a new watch call at the cursor of that moment. *)
Fixpoint reopened (t : trace) : Prop :=
  match t with
  | [] => True
  | (cur, AEOF) :: t' =>
      (∃ post, t' = (cur, ACloseBody) :: (cur, AWatchClusters cur) :: post)
      ∧ reopened t'
  | _ :: t' => reopened t'
  end.

(** The deliveries of [evs], each at the cursor it sets. *)
Definition deliveries (evs : list Event) : trace :=
  (λ ev, (eventVersion ev, ADeliver ev)) <$> evs.

(** The frames [ds] are data frames that decode to the events [evs]. *)
Definition decodeAs (ds : list (rawEvent + error)) (evs : list Event) : Prop :=
  Forall2 (λ d ev, pollEvent d = PollEvent ev) ds evs.

(** A successful response whose frames all decode, closed by the server. *)
Definition clean (answer : Response + error) (evs : list Event) : Prop :=
  ∃ resp, answer = inl resp ∧ StatusCode resp = 200 ∧ decodeAs (Body resp) evs.

(** What the goroutine does, from cursor [v], with clean responses that
    carry the events [evss]: per response the watch call at the cursor,
    the deliveries, the end of the stream and the release of the body. *)
Fixpoint cleanTrace (v : string) (evss : list (list Event)) : trace :=
  match evss with
  | [] => []
  | evs :: evss' =>
      let v' := cursorAfter v evs in
      ((v, AWatchClusters v) :: deliveries evs
       ++ (v', AEOF) :: (v', ACloseBody) :: cleanTrace v' evss')%list
  end.

(** The watch goroutine reads frame [d] after delivering exactly [evs]:
    the script starts with clean responses, followed by a successful one
    in which [d] comes after frames that all decode. *)
Inductive reaches : list (Response + error) → list Event → rawEvent + error → Prop :=
| reaches_here resp later ds evs d rest :
    StatusCode resp = 200 →
    Body resp = (ds ++ d :: rest)%list →
    decodeAs ds evs →
    reaches (inl resp :: later) evs d
| reaches_later answer evs0 script evs d :
    clean answer evs0 →
    reaches script evs d →
    reaches (answer :: script) (evs0 ++ evs)%list d.




End Watch.

(** *** The bookkeeping of the supervisor *)

(** Every registered name points to a runtime of that name on which
    [Delete] has not been called and which was given the channel
    registered for the name; every registered channel has been made; and
    no channel is registered under two names. *)
Definition registered_ok (m : Machine) : Prop :=
  (∀ name p, clusters (ctl m) !! name = Some p →
     ∃ r, heap m !! p = Some r
          ∧ cluster.name r = name
          ∧ cluster.halted r = false
          ∧ stopChMap (ctl m) !! name = Some (cluster.stopC r))
  ∧ (∀ name ch, stopChMap (ctl m) !! name = Some ch → (ch < chans m)%nat)
  ∧ (∀ n1 n2 ch, stopChMap (ctl m) !! n1 = Some ch →
                 stopChMap (ctl m) !! n2 = Some ch → n1 = n2).


(** One attempt of [initResource] that ends in an error. *)
Definition failing `{Json} (a : InitAnswer) : Prop :=
  ∀ m, ∃ calls err, initResource a m = (calls, inr err, m).

#[global] Instance initCall_eq_dec : EqDecision initCall.
Proof. solve_decision. Defined.

(** The frames of all the bodies of a script, in order. *)
Definition frames (script : list (Response + error)) : list (rawEvent + error) :=
  script ≫= λ answer,
    match answer with
    | inl resp => Body resp
    | inr _ => []
    end.

End controller.

(** ** Sample inputs *)

Module sample.

Definition spec1 : spec.ClusterSpec :=
  {| spec.Size := 3; spec.Version := "0.9.2"; spec.Paused := false;
     spec.AntiAffinity := false; spec.NodeSelector := None |}.

Definition spec2 : spec.ClusterSpec :=
  {| spec.Size := 5; spec.Version := "0.9.4"; spec.Paused := false;
     spec.AntiAffinity := true; spec.NodeSelector := Some {[ "zone" := "a" ]} |}.

Definition object (name rv : string) (cs : spec.ClusterSpec) : spec.NatsCluster :=
  {| spec.ObjectMeta :=
       {| api.Name := name; api.GenerateName := EmptyString;
          api.ResourceVersion := rv; api.Labels := None; api.Annotations := None |};
     spec.Spec := cs |}.

(** A decoder that knows two statuses and two cluster objects. *)
Definition json : controller.Json :=
  {| controller.unmarshalStatus s :=
       if decide (s = "gone") then
         inl {| controller.Code := 410; controller.Message := "too old resource version" |}
       else if decide (s = "forbidden") then
         inl {| controller.Code := 403; controller.Message := "forbidden" |}
       else inr (ErrorString "invalid character");
     controller.unmarshalNatsCluster s :=
       if decide (s = "a@1") then inl (object "a" "1" spec1)
       else if decide (s = "a@2") then inl (object "a" "2" spec2)
       else inr (ErrorString "unexpected end of JSON input");
     controller.decodeClusterList s :=
       inr (ErrorString "unexpected end of JSON input") |}.

Definition frame (type object : string) : controller.rawEvent + error :=
  inl {| controller.re_Type := type; controller.re_Object := object |}.

Definition ok (body : list (controller.rawEvent + error)) : controller.Response + error :=
  inl {| controller.StatusCode := 200; controller.Status_ := "200 OK";
         controller.Body := body |}.

Definition cfg : controller.Config :=
  {| controller.Namespace := "default";
     controller.MasterHost := "http://127.0.0.1:8080";
     controller.PVProvisioner := "kubernetes.io/gce-pd" |}.

(** The controller [New cfg] returns, before anything is allocated. *)
Definition machine : controller.Machine :=
  controller.boot
    {| controller.Config_ := cfg; controller.clusters := ∅;
       controller.stopChMap := ∅ |}.

(** The resource definition is registered at the first attempt. *)
Definition registered : controller.InitAnswer :=
  {| controller.tprCreate := None; controller.tprReady := None;
     controller.listClusters := inr (ErrorString "not asked") |}.



Definition added1 : controller.Event :=
  {| controller.Type_ := "ADDED"; controller.Object := object "a" "1" spec1 |}.

Definition added2 : controller.Event :=
  {| controller.Type_ := "ADDED"; controller.Object := object "a" "2" spec2 |}.

Definition modified2 : controller.Event :=
  {| controller.Type_ := "MODIFIED"; controller.Object := object "a" "2" spec2 |}.

(** An event of a type the event loop has no case for. *)
Definition bookmark : controller.rawEvent :=
  {| controller.re_Type := "BOOKMARK"; controller.re_Object := "a@2" |}.

Definition pod : api.Pod :=
  {| api.Meta :=
       {| api.Name := EmptyString; api.GenerateName := "demo-";
          api.ResourceVersion := EmptyString;
          api.Labels := Some {[ "app" := "nats"; "nats_cluster" := "demo" ]};
          api.Annotations := Some {[ "nats.version" := "0.9.2" ]} |};
     api.Spec :=
       {| api.Containers := [];
          api.RestartPolicy := api.RestartPolicyNever;
          api.NodeSelector := None; api.AntiAffinity := None |} |}.

Definition createdPod : api.Pod :=
  {| api.Meta :=
       {| api.Name := "demo-x7k2p"; api.GenerateName := "demo-";
          api.ResourceVersion := "12";
          api.Labels := api.Labels (api.Meta pod);
          api.Annotations := api.Annotations (api.Meta pod) |};
     api.Spec := api.Spec pod |}.


Definition server : k8sutil.Server :=
  {| k8sutil.pods := ∅; k8sutil.calls := [] |}.

(** A pod without annotations. *)
Definition bare : api.Pod :=
  {| api.Meta :=
       {| api.Name := "demo-x7k2p"; api.GenerateName := "demo-";
          api.ResourceVersion := "12"; api.Labels := None;
          api.Annotations := None |};
     api.Spec := api.Spec pod |}.

(** The pod exists already. *)
Definition taken : k8sutil.Env :=
  {| k8sutil.created _ _ :=
       inr (StatusError 409 "AlreadyExists" "pods demo-x7k2p already exists");
     k8sutil.watching _ _ := None;
     k8sutil.until _ := None |}.

Definition notServed : k8sutil.HTTPResponse + error :=
  inl {| k8sutil.StatusCode := 404; k8sutil.Status := "404 Not Found" |}.

Definition served : k8sutil.HTTPResponse :=
  {| k8sutil.StatusCode := 200; k8sutil.Status := "200 OK" |}.

(** A decoder that also knows one list, of two clusters. *)
Definition listing : controller.Json :=
  {| controller.unmarshalStatus := @controller.unmarshalStatus json;
     controller.unmarshalNatsCluster := @controller.unmarshalNatsCluster json;
     controller.decodeClusterList s :=
       if decide (s = "a,b@7") then
         inl {| controller.ListMeta_ResourceVersion := "7";
                controller.Items := [object "a" "3" spec1; object "b" "5" spec2] |}
       else inr (ErrorString "unexpected end of JSON input") |}.

(** The resource definition exists already and the list is answered. *)
Definition existing : controller.InitAnswer :=
  {| controller.tprCreate :=
       Some (StatusError 409 "AlreadyExists" "thirdpartyresources already exists");
     controller.tprReady := None;
     controller.listClusters := inl "a,b@7" |}.

(** The orchestrator cannot be reached. *)
Definition refused : controller.InitAnswer :=
  {| controller.tprCreate := Some (ErrorString "connection refused");
     controller.tprReady := None;
     controller.listClusters := inr (ErrorString "connection refused") |}.

Definition deleted1 : controller.Event :=
  {| controller.Type_ := "DELETED"; controller.Object := object "a" "1" spec1 |}.

(** The second watch call fails. *)
Definition resetWorld : controller.World :=
  {| controller.inits := [registered];
     controller.watches :=
       [ ok [frame "ADDED" "a@1"]; inr (ErrorString "connection reset by peer");
         ok [] ] |}.

(** The second watch is answered with 503. *)
Definition unavailable : controller.Response :=
  {| controller.StatusCode := 503;
     controller.Status_ := "503 Service Unavailable";
     controller.Body := [frame "MODIFIED" "a@2"] |}.

Definition unavailableWorld : controller.World :=
  {| controller.inits := [registered];
     controller.watches := [ ok [frame "ADDED" "a@1"]; inl unavailable; ok [] ] |}.


(** A stream that reports a status other than 410. *)
Definition forbiddenWorld : controller.World :=
  {| controller.inits := [registered];
     controller.watches :=
       [ ok [frame "ADDED" "a@1"; frame "ERROR" "forbidden"; frame "DELETED" "a@2"];
         ok [] ] |}.

End sample.

(** * Properties *)

#[local] Set Warnings "-clear-no-such-hyp".

(** ** Formatting *)

Lemma string_app_nil_r (s : string) : s +:+ EmptyString = s.
Proof.
  induction s as [|c s IH]; [reflexivity|].
  change (String c (s +:+ EmptyString) = String c s). by rewrite IH.
Qed.

Lemma string_app_assoc (s1 s2 s3 : string) : (s1 +:+ s2) +:+ s3 = s1 +:+ s2 +:+ s3.
Proof.
  induction s1 as [|c s1 IH]; [reflexivity|].
  change (String c ((s1 +:+ s2) +:+ s3) = String c (s1 +:+ s2 +:+ s3)).
  by rewrite IH.
Qed.

Lemma Sprintf_cluster (port : Z) :
  Sprintf "--cluster=nats://0.0.0.0:%d" [ArgD port]
  = "--cluster=nats://0.0.0.0:" +:+ pretty port.
Proof.
  change (Sprintf "--cluster=nats://0.0.0.0:%d" [ArgD port])
    with ("--cluster=nats://0.0.0.0:" +:+ pretty port +:+ EmptyString).
  by rewrite string_app_nil_r.
Qed.

Lemma Sprintf_http_port (port : Z) :
  Sprintf "--http_port=%d" [ArgD port] = "--http_port=" +:+ pretty port.
Proof.
  change (Sprintf "--http_port=%d" [ArgD port])
    with ("--http_port=" +:+ pretty port +:+ EmptyString).
  by rewrite string_app_nil_r.
Qed.

Lemma Sprintf_routes (host : string) (port : Z) :
  Sprintf "--routes=nats://%s:%d" [ArgS host; ArgD port]
  = "--routes=nats://" +:+ host +:+ ":" +:+ pretty port.
Proof.
  change (Sprintf "--routes=nats://%s:%d" [ArgS host; ArgD port])
    with ("--routes=nats://" +:+ host +:+ ":" +:+ pretty port +:+ EmptyString).
  by rewrite string_app_nil_r.
Qed.

Lemma MakeNATSImage_eq (version : string) :
  k8sutil.MakeNATSImage version = "nats:" +:+ version.
Proof.
  change (k8sutil.MakeNATSImage version) with ("nats:" +:+ version +:+ EmptyString).
  by rewrite string_app_nil_r.
Qed.

(** ** Templates *)

Section TemplateProperties.
Variables ClusterPort MonitoringPort : Z.

Lemma MakePodSpec_unfold (clusterName : string) (cs : spec.ClusterSpec) :
  k8sutil.MakePodSpec ClusterPort MonitoringPort clusterName cs =
  Ret (let pod :=
         {| api.Meta :=
              {| api.Name := EmptyString;
                 api.GenerateName := clusterName +:+ "-";
                 api.ResourceVersion := EmptyString;
                 api.Labels := Some {[ "app" := "nats"; "nats_cluster" := clusterName ]};
                 api.Annotations :=
                   Some {[ k8sutil.versionAnnotationKey := spec.Version cs ]} |};
            api.Spec :=
              {| api.Containers :=
                   [ {| api.Image := "nats:" +:+ spec.Version cs;
                        api.Args :=
                          [ "--cluster=nats://0.0.0.0:" +:+ pretty ClusterPort;
                            "--http_port=" +:+ pretty MonitoringPort;
                            "--routes=nats://" +:+ (clusterName +:+ "-mgmt") +:+ ":"
                              +:+ pretty ClusterPort ] |} ];
                 api.RestartPolicy := api.RestartPolicyNever;
                 api.NodeSelector := None;
                 api.AntiAffinity := None |} |} in
       let pod := if spec.AntiAffinity cs
                  then k8sutil.podWithAntiAffinity pod clusterName else pod in
       if decide (len (spec.NodeSelector cs) ≠ 0%nat)
       then k8sutil.PodWithNodeSelector pod (spec.NodeSelector cs) else pod).
Proof.
  unfold k8sutil.MakePodSpec, k8sutil.natsPodContainer.
  rewrite Sprintf_cluster, Sprintf_http_port, Sprintf_routes, MakeNATSImage_eq.
  reflexivity.
Qed.

(** C6. The version read back from a freshly templated pod is the version
    of the cluster spec it was built from: [MakePodSpec] returns a pod (it
    does not panic) and [GetNATSVersion] of that pod is [cs.Version]. *)
Theorem MakePodSpec_version (clusterName : string) (cs : spec.ClusterSpec) :
  ∃ pod, k8sutil.MakePodSpec ClusterPort MonitoringPort clusterName cs = Ret pod
         ∧ k8sutil.GetNATSVersion pod = spec.Version cs.
Proof.
  rewrite MakePodSpec_unfold. eexists; split; [reflexivity|].
  destruct (spec.AntiAffinity cs), (decide (len (spec.NodeSelector cs) ≠ 0%nat));
    unfold k8sutil.GetNATSVersion, index; simpl;
    by rewrite lookup_singleton_eq.
Qed.

(** C7. The pod template: generated-name prefix, labels, the single
    [nats:<version>] container with its three arguments in order, restart
    policy Never, and the node selector of the spec when that mapping is
    nonempty (unset otherwise). *)
Theorem MakePodSpec_shape (clusterName : string) (cs : spec.ClusterSpec) :
  ∃ pod, k8sutil.MakePodSpec ClusterPort MonitoringPort clusterName cs = Ret pod
    ∧ api.GenerateName (api.Meta pod) = clusterName +:+ "-"
    ∧ api.Labels (api.Meta pod)
      = Some {[ "app" := "nats"; "nats_cluster" := clusterName ]}
    ∧ api.Containers (api.Spec pod)
      = [ {| api.Image := "nats:" +:+ spec.Version cs;
             api.Args :=
               [ "--cluster=nats://0.0.0.0:" +:+ pretty ClusterPort;
                 "--http_port=" +:+ pretty MonitoringPort;
                 "--routes=nats://" +:+ clusterName +:+ "-mgmt:" +:+ pretty ClusterPort ] |} ]
    ∧ api.RestartPolicy (api.Spec pod) = "Never"
    ∧ api.NodeSelector (api.Spec pod)
      = if decide (len (spec.NodeSelector cs) = 0%nat) then None
        else spec.NodeSelector cs.
Proof.
  rewrite MakePodSpec_unfold. eexists; split; [reflexivity|].
  assert (Hroutes :
    "--routes=nats://" +:+ (clusterName +:+ "-mgmt") +:+ ":" +:+ pretty ClusterPort
    = "--routes=nats://" +:+ clusterName +:+ "-mgmt:" +:+ pretty ClusterPort).
  { f_equal. by rewrite string_app_assoc. }
  destruct (spec.AntiAffinity cs), (decide (len (spec.NodeSelector cs) ≠ 0%nat)) as [Hn|Hn];
    simpl; rewrite Hroutes;
    (destruct (decide (len (spec.NodeSelector cs) = 0%nat)); [|done]);
    try done; repeat split; done.
Qed.

End TemplateProperties.

(** The template at the usual NATS ports. *)
Example MakePodSpec_demo :
  (λ pod, (api.GenerateName (api.Meta pod),
           api.Containers (api.Spec pod),
           k8sutil.GetNATSVersion pod,
           api.AntiAffinity (api.Spec pod)))
    <$> (match k8sutil.MakePodSpec 6222 8222 "demo" sample.spec2 with
         | Ret pod => Some pod
         | Panic _ => None
         end)
  = Some ("demo-",
          [ {| api.Image := "nats:0.9.4";
               api.Args := [ "--cluster=nats://0.0.0.0:6222";
                             "--http_port=8222";
                             "--routes=nats://demo-mgmt:6222" ] |} ],
          "0.9.4",
          Some "demo").
Proof. vm_compute. reflexivity. Qed.

Section ServiceProperties.
Variables ClientPort ClusterPort MonitoringPort : Z.

(** C8. The two service templates: both headless; the client service is
    named after the cluster, exposes the client port alone over TCP and
    selects [app=nats]; the management service is named [<name>-mgmt],
    exposes the cluster port and the monitoring port over TCP and selects
    [app=nats-mgmt]. *)
Theorem service_templates_shape (clusterName : string) :
  let client := k8sutil.makeServiceSpec ClientPort clusterName in
  let mgmt := k8sutil.makeMgmtServiceSpec ClusterPort MonitoringPort clusterName in
  (api.Name (api.ServiceMeta client) = clusterName
   ∧ api.ClusterIP (api.ServiceSpec_ client) = "None"
   ∧ (∃ p, api.Ports (api.ServiceSpec_ client) = [p]
           ∧ api.Port p = ClientPort ∧ api.Protocol p = "TCP")
   ∧ api.Selector (api.ServiceSpec_ client)
     = Some {[ "app" := "nats"; "nats_cluster" := clusterName ]})
  ∧
  (api.Name (api.ServiceMeta mgmt) = clusterName +:+ "-mgmt"
   ∧ api.ClusterIP (api.ServiceSpec_ mgmt) = "None"
   ∧ (∃ p q, api.Ports (api.ServiceSpec_ mgmt) = [p; q]
             ∧ api.Port p = ClusterPort ∧ api.Protocol p = "TCP"
             ∧ api.Port q = MonitoringPort ∧ api.Protocol q = "TCP")
   ∧ api.Selector (api.ServiceSpec_ mgmt)
     = Some {[ "app" := "nats-mgmt"; "nats_cluster" := clusterName ]}).
Proof.
  split.
  - repeat split; try reflexivity. eexists; repeat split; reflexivity.
  - repeat split; try reflexivity. do 2 eexists; repeat split; reflexivity.
Qed.

End ServiceProperties.



(** C9. [New] returns a controller exactly for the two supported
    provisioners and panics, with the validation error, for every other
    value. *)
Theorem New_validates_provisioner (cfg : controller.Config) :
  let supported :=
    controller.PVProvisioner cfg = "kubernetes.io/gce-pd"
    ∨ controller.PVProvisioner cfg = "kubernetes.io/aws-ebs" in
  ((∃ c, controller.New cfg = Ret c) ↔ supported)
  ∧ ((∃ err, controller.New cfg = Panic err ∧ controller.validate cfg = Some err)
     ↔ ¬ supported).
Proof.
  assert (Hin : controller.PVProvisioner cfg ∈ controller.supportedPVProvisioners
                ↔ controller.PVProvisioner cfg = "kubernetes.io/gce-pd"
                  ∨ controller.PVProvisioner cfg = "kubernetes.io/aws-ebs").
  { unfold controller.supportedPVProvisioners. set_solver. }
  unfold controller.New, controller.validate. simpl.
  destruct (decide (controller.PVProvisioner cfg ∈ controller.supportedPVProvisioners))
    as [Hs|Hs]; split; split.
  - intros _. by apply Hin.
  - intros _. eauto.
  - intros (err & ? & ?). done.
  - intros Hn. destruct Hn. by apply Hin.
  - intros [c ?]. done.
  - intros Hn. destruct Hs. by apply Hin.
  - intros _ Hn. apply Hs. by apply Hin.
  - intros _. eauto.
Qed.

(** ** The watch goroutine and [Run] *)

Import controller.

Section WatchProperties.
Context `{Json}.

Implicit Types (v : string) (t : trace) (evs : list Event) (ev : Event).


Lemma cursorAfter_nil v : cursorAfter v [] = v.
Proof. reflexivity. Qed.

Lemma cursorAfter_cons v ev evs : cursorAfter v (ev :: evs) = cursorAfter (eventVersion ev) evs.
Proof.
  unfold cursorAfter. rewrite last_cons. by destruct (last evs).
Qed.

Lemma cursorAfter_app v evs1 evs2 :
  cursorAfter v (evs1 ++ evs2) = cursorAfter (cursorAfter v evs1) evs2.
Proof.
  revert v. induction evs1 as [|ev evs1 IH]; intros v; [reflexivity|].
  simpl. by rewrite !cursorAfter_cons, IH.
Qed.

Lemma delivered_app t1 t2 : delivered (t1 ++ t2) = delivered t1 ++ delivered t2.
Proof. apply omap_app. Qed.

Lemma delivered_deliveries evs : delivered (deliveries evs) = evs.
Proof. induction evs as [|ev evs IH]; [reflexivity|]. simpl. by f_equal. Qed.

Lemma delivered_cons_deliver cur ev t :
  delivered ((cur, ADeliver ev) :: t) = ev :: delivered t.
Proof. reflexivity. Qed.

Lemma delivered_cons_other cur a t :
  (∀ ev, a ≠ ADeliver ev) → delivered ((cur, a) :: t) = delivered t.
Proof. intros Ha. destruct a; try reflexivity. by destruct (Ha ev). Qed.

(** The cursor of the last entry, or [v]. *)
Lemma tracked_deliveries v evs t :
  tracked v (deliveries evs ++ t) ↔ tracked (cursorAfter v evs) t.
Proof.
  revert v. induction evs as [|ev evs IH]; intros v; [reflexivity|].
  rewrite cursorAfter_cons. simpl. rewrite IH. fold (eventVersion ev). naive_solver.
Qed.

Lemma reopened_deliveries evs t : reopened (deliveries evs ++ t) ↔ reopened t.
Proof. induction evs as [|ev evs IH]; [reflexivity|]. simpl. apply IH. Qed.

(** The inner loop delivers the events of the frames it decodes and ends
    with one closing entry at the cursor it has reached. *)
Lemma pollLoop_shape v body :
  ∃ evs a e,
    pollLoop v body = (deliveries evs ++ [(cursorAfter v evs, a)], cursorAfter v evs, e)
    ∧ match e with
      | Break => a = AEOF
      | Return err => a = ASendErr err
      | Exit msg => a = AFatalf msg
      end.
Proof.
  revert v. induction body as [|d body IH]; intros v.
  - by exists [], AEOF, Break.
  - simpl. destruct (pollEvent d) as [ev|st|err].
    + destruct (IH (eventVersion ev)) as (evs & a & e & Heq & Ha). fold (eventVersion ev). rewrite Heq.
      exists (ev :: evs), a, e. by rewrite cursorAfter_cons.
    + case_decide.
      * by exists [], (ASendErr ErrVersionOutdated), (Return ErrVersionOutdated).
      * by eexists [], (AFatalf _), (Exit _).
    + case_decide.
      * by exists [], AEOF, Break.
      * by exists [], (ASendErr err), (Return err).
Qed.

(** Reading frames that decode: their events are delivered and the loop
    goes on, at the cursor of the last one, with the frames that follow. *)
Lemma pollLoop_decodeAs v ds evs rest :
  decodeAs ds evs →
  pollLoop v (ds ++ rest) =
  let '(t, v', e) := pollLoop (cursorAfter v evs) rest in
  (deliveries evs ++ t, v', e).
Proof.
  intros Hds. revert v. induction Hds as [|d ev ds evs Hd Hds IH]; intros v.
  - simpl. by destruct (pollLoop _ rest) as [[??]?].
  - simpl. rewrite Hd, IH, cursorAfter_cons. fold (eventVersion ev).
    by destruct (pollLoop _ rest) as [[??]?].
Qed.

Lemma monitor_head v script :
  ∃ t, (monitor v script).1 = (v, AWatchClusters v) :: t.
Proof.
  destruct script as [|[resp|err] script]; simpl; eauto.
  case_decide; simpl; eauto.
  destruct (pollLoop v (Body resp)) as [[t v'] []]; simpl; eauto.
  destruct (monitor v' script); simpl; eauto.
Qed.

(** One clean response: watch call, deliveries, end of stream, release
    of the body, and on to the next call at the cursor reached. *)
Lemma monitor_clean v answer evs script :
  clean answer evs →
  monitor v (answer :: script) =
  let v' := cursorAfter v evs in
  let '(t', s) := monitor v' script in
  ((v, AWatchClusters v) :: deliveries evs ++ (v', AEOF) :: (v', ACloseBody) :: t', s).
Proof.
  intros (resp & -> & Hcode & Hds). simpl.
  destruct (decide (StatusCode resp ≠ 200)) as [Hn|_]; [done|].
  rewrite <- (app_nil_r (Body resp)), (pollLoop_decodeAs _ _ _ _ Hds). simpl.
  destruct (monitor _ script) as [t' s]. simpl.
  by rewrite <- app_assoc.
Qed.

Lemma tracked_monitor v script : tracked v (monitor v script).1.
Proof.
  revert v. induction script as [|[resp|err] script IH]; intros v; simpl;
    [by auto | | by auto].
  case_decide; simpl; [by auto|].
  destruct (pollLoop_shape v (Body resp)) as (evs & a & e & -> & Ha).
  specialize (IH (cursorAfter v evs)).
  destruct e; subst a.
  - destruct (monitor _ script) as [t' s]; simpl in *. split; [done|].
    rewrite <- app_assoc. apply tracked_deliveries. simpl. auto.
  - simpl. split; [done|]. rewrite <- app_assoc. apply tracked_deliveries.
    simpl. auto.
  - simpl. split; [done|]. apply tracked_deliveries. simpl. auto.
Qed.

Lemma reopened_monitor v script : reopened (monitor v script).1.
Proof.
  revert v. induction script as [|[resp|err] script IH]; intros v; simpl;
    [done | | done].
  case_decide; simpl; [done|].
  destruct (pollLoop_shape v (Body resp)) as (evs & a & e & -> & Ha).
  specialize (IH (cursorAfter v evs)).
  destruct (monitor_head (cursorAfter v evs) script) as [t1 Ht1].
  destruct e; subst a.
  - destruct (monitor _ script) as [t' s]; simpl in *. subst t'.
    rewrite <- app_assoc. apply reopened_deliveries. simpl. eauto.
  - simpl. rewrite <- app_assoc. apply reopened_deliveries. by simpl.
  - simpl. apply reopened_deliveries. by simpl.
Qed.

Lemma watch_keyed_monitor v script cur r :
  (cur, AWatchClusters r) ∈ (monitor v script).1 → r = cur.
Proof.
  revert v. induction script as [|[resp|err] script IH]; intros v; simpl.
  - rewrite list_elem_of_singleton. congruence.
  - case_decide; simpl.
    { rewrite !elem_of_cons, elem_of_nil. naive_solver. }
    destruct (pollLoop_shape v (Body resp)) as (evs & a & e & -> & Ha).
    specialize (IH (cursorAfter v evs)).
    assert (Hd : (cur, AWatchClusters r) ∉ deliveries evs).
    { unfold deliveries. rewrite list_elem_of_fmap. naive_solver. }
    destruct e; subst a.
    + destruct (monitor _ script) as [t' s]; simpl in *.
      rewrite <- app_assoc, !elem_of_cons, !elem_of_app, !elem_of_cons, elem_of_nil.
      naive_solver.
    + simpl. rewrite <- app_assoc, !elem_of_cons, !elem_of_app, !elem_of_cons, elem_of_nil.
      naive_solver.
    + simpl. rewrite !elem_of_cons, !elem_of_app, !elem_of_cons, elem_of_nil.
      naive_solver.
  - rewrite !elem_of_cons, elem_of_nil. naive_solver.
Qed.

Lemma tracked_entry v pre cur a post :
  tracked v (pre ++ (cur, a) :: post) →
  cur = cursorAfter v (delivered (pre ++ [(cur, a)])).
Proof.
  revert v. induction pre as [|[c b] pre IH]; intros v Ht.
  - destruct Ht as [-> _]. by destruct a.
  - destruct Ht as [Hc Ht]. apply IH in Ht.
    rewrite <- app_comm_cons.
    destruct b; rewrite ?delivered_cons_other by done;
      rewrite ?delivered_cons_deliver, ?cursorAfter_cons; by subst c.
Qed.

Lemma reopened_tail x t : reopened (x :: t) → reopened t.
Proof. destruct x as [c []]; simpl; tauto. Qed.

Lemma reopened_entry pre cur post :
  reopened (pre ++ (cur, AEOF) :: post) →
  ∃ post', post = (cur, ACloseBody) :: (cur, AWatchClusters cur) :: post'.
Proof.
  induction pre as [|x pre IH]; simpl.
  - tauto.
  - intros Ht. apply IH. by apply reopened_tail in Ht.
Qed.

(** Up to the frame it reaches, the goroutine has delivered the events
    of the frames before it; from there the inner loop decides. *)
Lemma monitor_reaches v script evs d :
  reaches script evs d →
  ∃ t0 rest later,
    delivered t0 = evs ∧
    monitor v script =
    let '(t, v', e) := pollLoop (cursorAfter v evs) (d :: rest) in
    match e with
    | Break => let '(t', s) := monitor v' later in (t0 ++ t ++ (v', ACloseBody) :: t', s)
    | Return err => (t0 ++ t ++ [(v', ACloseEventCh)], Errored err)
    | Exit msg => (t0 ++ t, Exited msg)
    end.
Proof.
  intros Hr. revert v.
  induction Hr as [resp later ds evs d rest Hcode Hbody Hds
                  |answer evs0 script evs d Hclean Hr IH]; intros v.
  - exists ((v, AWatchClusters v) :: deliveries evs), rest, later. split.
    { by rewrite delivered_cons_other, delivered_deliveries. }
    simpl monitor.
    destruct (decide (StatusCode resp ≠ 200)) as [Hn|_]; [done|].
    rewrite Hbody, (pollLoop_decodeAs _ _ _ _ Hds).
    destruct (pollLoop (cursorAfter v evs) (d :: rest)) as [[t v'] []].
    + destruct (monitor v' later) as [t' s]. by rewrite <- !app_assoc.
    + by rewrite <- !app_assoc.
    + done.
  - destruct (IH (cursorAfter v evs0)) as (t0 & rest & later & Hdel & Heq).
    exists ((v, AWatchClusters v) :: deliveries evs0 ++
            (cursorAfter v evs0, AEOF) :: (cursorAfter v evs0, ACloseBody) :: t0),
      rest, later.
    split.
    { rewrite delivered_cons_other by done.
      rewrite delivered_app, delivered_deliveries. simpl. by rewrite Hdel. }
    rewrite (monitor_clean _ _ _ _ Hclean). cbv zeta.
    rewrite Heq, cursorAfter_app.
    destruct (pollLoop _ (d :: rest)) as [[t v'] []].
    + destruct (monitor v' later) as [t' s]. simpl. by rewrite <- !app_assoc.
    + simpl. by rewrite <- !app_assoc.
    + simpl. by rewrite <- !app_assoc.
Qed.



(** Clean responses at the head of the script are read as [cleanTrace]
    tells, and the goroutine goes on with the rest of the script at the
    cursor of the last event delivered. *)
Lemma monitor_cleanTrace v answers evss script :
  Forall2 clean answers evss →
  monitor v (answers ++ script) =
  let '(t', s) := monitor (cursorAfter v (concat evss)) script in
  (cleanTrace v evss ++ t', s).
Proof.
  intros Hc. revert v. induction Hc as [|answer evs answers evss Hclean _ IH]; intros v.
  - change (monitor v ([] ++ script)) with (monitor v script).
    change (cursorAfter v (concat [])) with v.
    by destruct (monitor v script).
  - simpl app. rewrite (monitor_clean _ _ _ _ Hclean). cbv zeta.
    change (concat (evs :: evss)) with (evs ++ concat evss).
    rewrite IH, cursorAfter_app.
    destruct (monitor _ script) as [t' s]. simpl. by rewrite <- !app_assoc.
Qed.

Lemma delivered_cleanTrace v evss : delivered (cleanTrace v evss) = concat evss.
Proof.
  revert v. induction evss as [|evs evss IH]; intros v; [done|].
  simpl cleanTrace. rewrite delivered_cons_other by done.
  rewrite delivered_app, delivered_deliveries. simpl. by rewrite IH.
Qed.


(** *** Claims about the watch goroutine and [Run] *)

(** C3. In every trace of the watch goroutine: an event is delivered
    with the cursor already set to its resource version; each watch call
    asks for the cursor of that moment, which is the resource version of
    the last event delivered before the call (the initial version when
    there is none); and each end of stream is followed by the release of
    the body and a watch call at the cursor reached. The goroutine does
    deliver and reopen: responses that are read to a clean end give
    exactly the trace [cleanTrace] (call at the cursor, one delivery per
    frame at the version of its event, end of stream, release of the
    body), followed by a watch call at the version of the last event
    delivered; and every frame that is reached and decodes to an event is
    delivered, at the version of that event, after exactly the events of
    the frames before it. *)
Theorem monitor_cursor v script :
  let t := (monitor v script).1 in
  (∀ pre cur ev post,
     t = pre ++ (cur, ADeliver ev) :: post → cur = eventVersion ev)
  ∧ (∀ pre cur r post,
       t = pre ++ (cur, AWatchClusters r) :: post →
       r = cur ∧ cur = cursorAfter v (delivered pre))
  ∧ (∀ pre cur post,
       t = pre ++ (cur, AEOF) :: post →
       ∃ post', post = (cur, ACloseBody) :: (cur, AWatchClusters cur) :: post')
  ∧ (∀ answers evss rest,
       script = answers ++ rest →
       Forall2 clean answers evss →
       let v' := cursorAfter v (concat evss) in
       ∃ post, t = cleanTrace v evss ++ (v', AWatchClusters v') :: post)
  ∧ (∀ evs d ev,
       reaches script evs d →
       pollEvent d = PollEvent ev →
       ∃ pre post, t = pre ++ (eventVersion ev, ADeliver ev) :: post
                   ∧ delivered pre = evs).
Proof.
  intros t. pose proof (tracked_monitor v script) as Ht.
  pose proof (reopened_monitor v script) as Hre. fold t in Ht, Hre.
  split_and!.
  - intros pre cur ev post Heq. rewrite Heq in Ht.
    apply tracked_entry in Ht. rewrite Ht at 1.
    rewrite delivered_app, cursorAfter_app. reflexivity.
  - intros pre cur r post Heq. split.
    + apply (watch_keyed_monitor v script). fold t. rewrite Heq.
      apply elem_of_app. right. apply elem_of_cons. by left.
    + rewrite Heq in Ht. apply tracked_entry in Ht. rewrite Ht at 1.
      rewrite delivered_app. simpl. by rewrite app_nil_r.
  - intros pre cur post Heq. rewrite Heq in Hre. by apply reopened_entry in Hre.
  - intros answers evss rest -> Hc v'. subst t.
    rewrite (monitor_cleanTrace _ _ _ _ Hc). fold v'.
    destruct (monitor_head v' rest) as [post Hpost].
    destruct (monitor v' rest) as [t' s]. simpl in *. subst t'. eauto.
  - intros evs d ev Hr Hd. subst t.
    destruct (monitor_reaches v _ _ _ Hr) as (t0 & rest & later & Hdel & ->).
    assert (Hloop : pollLoop (cursorAfter v evs) (d :: rest) =
                    let '(t1, v1, e1) := pollLoop (eventVersion ev) rest in
                    ((eventVersion ev, ADeliver ev) :: t1, v1, e1)).
    { cbn -[pollEvent Sprintf]. by rewrite Hd. }
    rewrite Hloop. destruct (pollLoop (eventVersion ev) rest) as [[t1 v1] e1].
    destruct e1 as [|err|msg].
    + destruct (monitor v1 later) as [t' s]. simpl. eauto.
    + simpl. eauto.
    + simpl. eauto.
Qed.



(** C10. A frame of any type other than ERROR whose object decodes as a
    cluster is an event for [pollEvent]; the inner loop sets the cursor to
    its resource version, delivers it and goes on from that cursor; the
    goroutine delivers it whenever it reaches the frame; and when the type
    is none of ADDED, MODIFIED, DELETED the event loop of [Run] leaves the
    controller and the runtimes as they are. *)
Theorem unknown_type_event re obj :
  re_Type re ≠ "ERROR" →
  unmarshalNatsCluster (re_Object re) = inl obj →
  let ev := {| Type_ := re_Type re; Object := obj |} in
  pollEvent (inl re) = PollEvent ev
  ∧ (∀ v rest,
       pollLoop v (inl re :: rest) =
       let '(t, v', e) := pollLoop (eventVersion ev) rest in
       ((eventVersion ev, ADeliver ev) :: t, v', e))
  ∧ (∀ v script evs,
       reaches script evs (inl re) →
       ∃ t0 t1, (monitor v script).1 = t0 ++ (eventVersion ev, ADeliver ev) :: t1
                ∧ delivered t0 = evs)
  ∧ (re_Type re ∉ ["ADDED"; "MODIFIED"; "DELETED"] → ∀ m, handleEvent ev m = m).
Proof.
  intros Hty Hobj ev.
  assert (Hpoll : pollEvent (inl re) = PollEvent ev).
  { simpl. rewrite decide_False by done. by rewrite Hobj. }
  assert (Hloop : ∀ v rest,
    pollLoop v (inl re :: rest) =
    let '(t, v', e) := pollLoop (eventVersion ev) rest in
    ((eventVersion ev, ADeliver ev) :: t, v', e)).
  { intros v rest.
    refine (pollLoop_decodeAs v [inl re] [ev] rest _).
    by repeat constructor. }
  split_and!; [done | done | |].
  - intros v script evs Hr.
    destruct (monitor_reaches v _ _ _ Hr) as (t0 & rest & later & Hdel & Heq).
    rewrite Hloop in Heq. rewrite Heq.
    destruct (pollLoop (eventVersion ev) rest) as [[t v'] []].
    + destruct (monitor v' later) as [t' s]. simpl. eauto.
    + simpl. eauto.
    + simpl. eauto.
  - intros Hnot m. unfold handleEvent. simpl.
    rewrite !not_elem_of_cons in Hnot. destruct Hnot as (? & ? & ? & _).
    by rewrite !decide_False by done.
Qed.

End WatchProperties.

(** *** Claims about the event loop *)

(** C2, as the code has it. An ADDED event always makes a new channel and
    a new runtime and registers both under the name of the event, whether
    or not a runtime was registered under that name. The runtime
    registered is one that did not exist before; every runtime that did
    exist is left as it was (neither updated nor halted); the entries of
    other names are unchanged. *)
Theorem ADDED_always_registers (ev : Event) (m : Machine) :
  Type_ ev = "ADDED" →
  let name := api.Name (spec.ObjectMeta (Object ev)) in
  let m' := handleEvent ev m in
  let p := length (heap m) in
  stopChMap (ctl m') !! name = Some (chans m)
  ∧ chans m' = S (chans m)
  ∧ clusters (ctl m') !! name = Some p
  ∧ heap m !! p = None
  ∧ heap m' !! p =
      Some {| cluster.name := name;
              cluster.namespace := Namespace (Config_ (ctl m));
              cluster.spec_ := spec.Spec (Object ev);
              cluster.stopC := chans m;
              cluster.restored := false;
              cluster.halted := false |}
  ∧ (∀ q r, heap m !! q = Some r → heap m' !! q = Some r)
  ∧ (∀ n, n ≠ name →
       clusters (ctl m') !! n = clusters (ctl m) !! n
       ∧ stopChMap (ctl m') !! n = stopChMap (ctl m) !! n).
Proof.
  intros Hty name m' p. subst m'. unfold handleEvent.
  rewrite decide_True by done. simpl. fold name p.
  split_and!.
  - by rewrite lookup_insert_eq.
  - done.
  - by rewrite lookup_insert_eq.
  - by apply lookup_ge_None_2.
  - by rewrite lookup_app_r, Nat.sub_diag.
  - intros q r Hq. by apply lookup_app_l_Some.
  - intros n Hn. by rewrite !lookup_insert_ne.
Qed.

(** ** The claims at the sample inputs *)






Lemma ADDED_always_registers_witness :
  clusters (ctl (handleEvent sample.added2 (handleEvent sample.added1 sample.machine)))
    !! "a" = Some 1%nat.
Proof.
  exact (proj1 (proj2 (proj2
    (ADDED_always_registers sample.added2
       (handleEvent sample.added1 sample.machine) eq_refl)))).
Defined.

(** C2, as the specification states it, fails: with a runtime registered
    under the name, a further ADDED event registers another runtime in its
    place; the first keeps its spec and is not halted, so that two
    runtimes of that name are left; the outcome differs from that of the
    MODIFIED event with the same object. *)
Lemma ADDED_replay_replaces_runtime :
  let m1 := handleEvent sample.added1 sample.machine in
  let m2 := handleEvent sample.added2 m1 in
  clusters (ctl m1) !! "a" = Some 0%nat
  ∧ clusters (ctl m2) !! "a" = Some 1%nat
  ∧ cluster.spec_ <$> heap m2 !! 0%nat = Some sample.spec1
  ∧ (λ c, (cluster.name c, cluster.halted c)) <$> heap m2 = [("a", false); ("a", false)]
  ∧ m2 ≠ handleEvent sample.modified2 m1.
Proof.
  split_and!; try (vm_compute; reflexivity).
  intros Heq. apply (f_equal (λ m, length (heap m))) in Heq.
  vm_compute in Heq. discriminate.
Qed.




Lemma unknown_type_event_witness :
  let m1 := handleEvent sample.added1 sample.machine in
  handleEvent {| Type_ := "BOOKMARK"; Object := sample.object "a" "2" sample.spec2 |} m1
  = m1.
Proof.
  intros m1.
  assert (Hty : re_Type sample.bookmark ≠ "ERROR") by discriminate.
  destruct (@unknown_type_event sample.json sample.bookmark
              (sample.object "a" "2" sample.spec2) Hty eq_refl)
    as (_ & _ & _ & Hdrop).
  apply Hdrop.
  rewrite !not_elem_of_cons. split_and!; [discriminate.. | apply not_elem_of_nil].
Defined.

(** * Further properties of [k8sutil] *)

(** X1. On a pod whose annotation map is not nil, [SetNATSVersion]
    returns, the version read back is the one written, every other
    annotation reads as before, and nothing but the annotations changes. *)
Theorem SetNATSVersion_GetNATSVersion (pod : api.Pod) (version : string)
    (a : gmap string string) :
  api.Annotations (api.Meta pod) = Some a →
  ∃ pod',
    k8sutil.SetNATSVersion pod version = Ret pod'
    ∧ k8sutil.GetNATSVersion pod' = version
    ∧ (∀ k, k ≠ k8sutil.versionAnnotationKey →
         index (api.Annotations (api.Meta pod')) k
         = index (api.Annotations (api.Meta pod)) k)
    ∧ api.Spec pod' = api.Spec pod
    ∧ api.Labels (api.Meta pod') = api.Labels (api.Meta pod)
    ∧ api.Name (api.Meta pod') = api.Name (api.Meta pod)
    ∧ api.GenerateName (api.Meta pod') = api.GenerateName (api.Meta pod).
Proof.
  intros Ha. unfold k8sutil.SetNATSVersion, k8sutil.GetNATSVersion.
  rewrite Ha. simpl. eexists. split; [reflexivity|]. simpl.
  split_and!; try reflexivity.
  - by rewrite lookup_insert_eq.
  - intros k Hk. simpl. by rewrite lookup_insert_ne.
Qed.

(** X2. On a pod whose annotation map is nil, [SetNATSVersion] panics
    with the run-time error of a write to a nil map, and
    [GetNATSVersion] reads the empty string. *)
Theorem NATSVersion_nil_annotations (pod : api.Pod) (version : string) :
  api.Annotations (api.Meta pod) = None →
  k8sutil.SetNATSVersion pod version
  = Panic (ErrorString "assignment to entry in nil map")
  ∧ k8sutil.GetNATSVersion pod = EmptyString.
Proof.
  intros Ha. unfold k8sutil.SetNATSVersion, k8sutil.GetNATSVersion.
  by rewrite Ha.
Qed.

Lemma GetPodNames_foldl (acc : list string) (pods : list api.Pod) :
  foldl (λ res p, res ++ [api.Name (api.Meta p)]) acc pods
  = acc ++ ((λ p, api.Name (api.Meta p)) <$> pods).
Proof.
  revert acc. induction pods as [|p pods IH]; intros acc; simpl.
  - by rewrite app_nil_r.
  - by rewrite IH, <- app_assoc.
Qed.

(** X3. [GetPodNames] returns the names of the pods, one per pod and in
    the order of the pods. *)
Theorem GetPodNames_names (pods : list api.Pod) :
  k8sutil.GetPodNames pods = (λ p, api.Name (api.Meta p)) <$> pods
  ∧ length (k8sutil.GetPodNames pods) = length pods
  ∧ (∀ i p, pods !! i = Some p →
       k8sutil.GetPodNames pods !! i = Some (api.Name (api.Meta p))).
Proof.
  assert (Heq : k8sutil.GetPodNames pods = (λ p, api.Name (api.Meta p)) <$> pods).
  { unfold k8sutil.GetPodNames. by rewrite GetPodNames_foldl. }
  rewrite Heq. split_and!; [done | by rewrite length_fmap |].
  intros i p Hp. by rewrite list_lookup_fmap, Hp.
Qed.

(** X4. The two error classifiers: an error is AlreadyExists exactly when
    it is a status error with code 409 and reason AlreadyExists, NotFound
    exactly when it is one with code 404 and reason NotFound; no error is
    both, and an error that is no status error is neither. *)
Theorem error_classifiers (err : error) :
  (k8sutil.IsKubernetesResourceAlreadyExistError err = true
   ↔ ∃ msg, err = StatusError 409 "AlreadyExists" msg)
  ∧ (k8sutil.IsKubernetesResourceNotFoundError err = true
     ↔ ∃ msg, err = StatusError 404 "NotFound" msg)
  ∧ ¬ (k8sutil.IsKubernetesResourceAlreadyExistError err = true
       ∧ k8sutil.IsKubernetesResourceNotFoundError err = true).
Proof.
  destruct err as [| |msg|code reason msg|]; simpl;
    try (split_and!; [split; [done | by intros [? ?]]
                     |split; [done | by intros [? ?]]
                     |by intros [? ?]]).
  rewrite !bool_decide_eq_true. split_and!.
  - split.
    + intros [-> ->]. eauto.
    + intros [? [= -> -> _]]. done.
  - split.
    + intros [-> ->]. eauto.
    + intros [? [= -> -> _]]. done.
  - intros [[-> _] [? _]]. done.
Qed.

(** X5. The address of the watch is the address of the list followed by
    the watch query with the resource version asked for. *)
Theorem WatchClusters_url_extends (host ns resourceVersion : string) :
  k8sutil.WatchClusters_url host ns resourceVersion
  = k8sutil.ListClusters_url host ns
    +:+ "?watch=true&resourceVersion=" +:+ resourceVersion.
Proof.
  change (k8sutil.WatchClusters_url host ns resourceVersion)
    with (host +:+ "/apis/nats.io/v1/namespaces/" +:+ ns
          +:+ "/natsclusters?watch=true&resourceVersion="
          +:+ resourceVersion +:+ EmptyString).
  change (k8sutil.ListClusters_url host ns)
    with (host +:+ "/apis/nats.io/v1/namespaces/" +:+ ns
          +:+ "/natsclusters" +:+ EmptyString).
  rewrite !string_app_nil_r, !string_app_assoc. reflexivity.
Qed.

(** A 404 answer: the resource is not served yet. *)
Lemma WaitTPRReady_pending host ns (pending : list (k8sutil.HTTPResponse + error)) rest :
  Forall (λ a, ∃ resp, a = inl resp ∧ k8sutil.StatusCode resp = 404) pending →
  k8sutil.WaitTPRReady host ns (pending ++ rest) =
  let '(calls, r) := k8sutil.WaitTPRReady host ns rest in
  (concat (replicate (length pending)
             [k8sutil.RList (k8sutil.ListClusters_url host ns); k8sutil.RCloseBody])
   ++ calls, r).
Proof.
  induction 1 as [|a pending (resp & -> & Hcode) _ IH]; simpl.
  - by destruct (k8sutil.WaitTPRReady host ns rest).
  - rewrite Hcode. simpl. rewrite IH.
    by destruct (k8sutil.WaitTPRReady host ns rest).
Qed.

(** X6. [WaitTPRReady] keeps polling while the list endpoint answers 404,
    closing each body. After such answers: a 200 ends the wait without
    error; any other status ends it with the error
    [invalid status code: <status>]; an error of the transport ends it
    with that error; and when only 404 answers come before the timeout
    the result is [wait.ErrWaitTimeout]. No answer past the deciding one
    is asked for. *)
Theorem WaitTPRReady_outcome host ns (pending : list (k8sutil.HTTPResponse + error)) :
  Forall (λ a, ∃ resp, a = inl resp ∧ k8sutil.StatusCode resp = 404) pending →
  let url := k8sutil.ListClusters_url host ns in
  let polls := concat (replicate (length pending) [k8sutil.RList url; k8sutil.RCloseBody]) in
  k8sutil.WaitTPRReady host ns pending = (polls, Some ErrWaitTimeout)
  ∧ (∀ resp rest,
       k8sutil.StatusCode resp = 200 →
       k8sutil.WaitTPRReady host ns (pending ++ inl resp :: rest)
       = (polls ++ [k8sutil.RList url; k8sutil.RCloseBody], None))
  ∧ (∀ resp rest,
       k8sutil.StatusCode resp ≠ 200 → k8sutil.StatusCode resp ≠ 404 →
       k8sutil.WaitTPRReady host ns (pending ++ inl resp :: rest)
       = (polls ++ [k8sutil.RList url; k8sutil.RCloseBody],
          Some (ErrorString ("invalid status code: " +:+ k8sutil.Status resp))))
  ∧ (∀ err rest,
       k8sutil.WaitTPRReady host ns (pending ++ inr err :: rest)
       = (polls ++ [k8sutil.RList url], Some err)).
Proof.
  intros Hp url polls. split_and!.
  - rewrite <- (app_nil_r pending) at 1.
    rewrite (WaitTPRReady_pending _ _ _ _ Hp). simpl. by rewrite app_nil_r.
  - intros resp rest Hc. rewrite (WaitTPRReady_pending _ _ _ _ Hp). simpl.
    by rewrite Hc.
  - intros resp rest Hc1 Hc2. rewrite (WaitTPRReady_pending _ _ _ _ Hp). simpl.
    rewrite !decide_False by done. simpl. unfold Errorf.
    change (Sprintf "invalid status code: %v" [ArgS (k8sutil.Status resp)])
      with ("invalid status code: " +:+ k8sutil.Status resp +:+ EmptyString).
    by rewrite string_app_nil_r.
  - intros err rest. by rewrite (WaitTPRReady_pending _ _ _ _ Hp).
Qed.

Lemma string_length_app (s1 s2 : string) :
  String.length (s1 +:+ s2) = (String.length s1 + String.length s2)%nat.
Proof.
  induction s1 as [|c s1 IH]; [reflexivity|].
  change (S (String.length (s1 +:+ s2)) = S (String.length s1 + String.length s2)).
  by rewrite IH.
Qed.

Lemma mgmt_name_differs (clusterName : string) : clusterName ≠ clusterName +:+ "-mgmt".
Proof.
  intros Heq. apply (f_equal String.length) in Heq.
  rewrite string_length_app in Heq. simpl in Heq. lia.
Qed.

Section ServiceCalls.
Variables ClientPort ClusterPort MonitoringPort : Z.

(** X7. Each delete asks, in the namespace given, for the name under which
    the matching create submits its service; the two names of a cluster
    differ, so the delete of one service never names the other. Each
    function makes exactly one call and hands the answer on. *)
Theorem service_delete_matches_create (clusterName ns : string)
    (created : api.Service + error) (deleted : option error) :
  (∃ svc,
     k8sutil.CreateService ClientPort created clusterName ns
     = ([k8sutil.ServicesCreate ns svc], created)
     ∧ k8sutil.DeleteService ClientPort deleted clusterName ns
       = ([k8sutil.ServicesDelete ns (api.Name (api.ServiceMeta svc))], deleted)
     ∧ api.Name (api.ServiceMeta svc) = clusterName)
  ∧ (∃ svc,
       k8sutil.CreateMgmtService ClusterPort MonitoringPort created clusterName ns
       = ([k8sutil.ServicesCreate ns svc], created)
       ∧ k8sutil.DeleteMgmtService ClusterPort MonitoringPort deleted clusterName ns
         = ([k8sutil.ServicesDelete ns (api.Name (api.ServiceMeta svc))], deleted)
       ∧ api.Name (api.ServiceMeta svc) = clusterName +:+ "-mgmt"
       ∧ api.Name (api.ServiceMeta svc) ≠ clusterName).
Proof.
  split.
  - eexists. split_and!; [|reflexivity|reflexivity].
    unfold k8sutil.CreateService. by destruct created.
  - eexists. split_and!; [|reflexivity|reflexivity|].
    + unfold k8sutil.CreateMgmtService. by destruct created.
    + simpl. intros Heq. by apply (mgmt_name_differs clusterName).
Qed.

(** X8. The labels of a templated pod are the selector of the client
    service and the label set of [PodListOpt]; they are not the selector
    of the management service, whose [app] is [nats-mgmt] where the pod
    has [nats]. *)
Theorem pod_labels_and_selectors (clusterName : string) (cs : spec.ClusterSpec) :
  ∃ pod,
    k8sutil.MakePodSpec ClusterPort MonitoringPort clusterName cs = Ret pod
    ∧ api.Labels (api.Meta pod)
      = api.Selector (api.ServiceSpec_ (k8sutil.makeServiceSpec ClientPort clusterName))
    ∧ api.Labels (api.Meta pod) = k8sutil.PodListOpt clusterName
    ∧ index (api.Labels (api.Meta pod)) "app" = "nats"
    ∧ index (api.Selector (api.ServiceSpec_
               (k8sutil.makeMgmtServiceSpec ClusterPort MonitoringPort clusterName)))
        "app" = "nats-mgmt"
    ∧ api.Labels (api.Meta pod)
      ≠ api.Selector (api.ServiceSpec_
          (k8sutil.makeMgmtServiceSpec ClusterPort MonitoringPort clusterName)).
Proof.
  rewrite MakePodSpec_unfold. eexists. split; [reflexivity|].
  assert (Hl : ∀ pod : api.Pod,
    api.Labels (api.Meta
      (if decide (len (spec.NodeSelector cs) ≠ 0%nat)
       then k8sutil.PodWithNodeSelector
              (if spec.AntiAffinity cs
               then k8sutil.podWithAntiAffinity pod clusterName else pod)
              (spec.NodeSelector cs)
       else if spec.AntiAffinity cs
            then k8sutil.podWithAntiAffinity pod clusterName else pod))
    = api.Labels (api.Meta pod)).
  { intros pod. by destruct (decide _), (spec.AntiAffinity cs). }
  cbv zeta. rewrite Hl. simpl.
  split_and!; try reflexivity.
  intros Heq. apply (f_equal (λ m, index m "app")) in Heq. done.
Qed.

(** X11. When the three ports fit in 32 bits, every port of the two
    service templates targets its own number. *)
Theorem service_ports_target_themselves (clusterName : string) :
  (∀ p, p ∈ [ClientPort; ClusterPort; MonitoringPort] → -2 ^ 31 ≤ p < 2 ^ 31) →
  Forall (λ sp, api.TargetPort sp = api.IntVal (api.Port sp))
    (api.Ports (api.ServiceSpec_ (k8sutil.makeServiceSpec ClientPort clusterName))
     ++ api.Ports (api.ServiceSpec_
          (k8sutil.makeMgmtServiceSpec ClusterPort MonitoringPort clusterName))).
Proof.
  intros Hr.
  assert (Hw : ∀ p, -2 ^ 31 ≤ p < 2 ^ 31 → api.FromInt p = api.IntVal p).
  { intros p Hp. unfold api.FromInt, int32. f_equal.
    rewrite Z.mod_small; lia. }
  simpl. repeat constructor; simpl; apply Hw, Hr; set_solver.
Qed.

End ServiceCalls.

(** X9. [UpdateAndWaitPod] starts with a get of the pod's name. When the
    get fails nothing else is called and its error is returned. An update
    is only issued after a get without error, and for the pod given. The
    result is nil only when the get, the update, the watch and the wait
    all succeeded, the watch being on the name the update returned. No
    delete is ever issued. *)
Theorem UpdateAndWaitPod_guarded (env : k8sutil.UpdateEnv) (ns : string)
    (pod : api.Pod) (timeout : Z) :
  let name := api.Name (api.Meta pod) in
  let '(calls, r) := k8sutil.UpdateAndWaitPod env ns pod timeout in
  (∃ rest, calls = k8sutil.UPodsGet ns name :: rest)
  ∧ (∀ err, k8sutil.got env ns name = Some err →
       calls = [k8sutil.UPodsGet ns name] ∧ r = Some err)
  ∧ (∀ ns' pod', k8sutil.UPodsUpdate ns' pod' ∈ calls →
       k8sutil.got env ns name = None ∧ ns' = ns ∧ pod' = pod)
  ∧ (r = None →
       ∃ updatedPod,
         k8sutil.got env ns name = None
         ∧ k8sutil.updated env ns pod = inl updatedPod
         ∧ k8sutil.uwatching env ns (api.Name (api.Meta updatedPod)) = None
         ∧ k8sutil.uuntil env timeout = None
         ∧ calls = [k8sutil.UPodsGet ns name; k8sutil.UPodsUpdate ns pod;
                    k8sutil.UPodsWatch ns (api.Name (api.Meta updatedPod));
                    k8sutil.UWatchUntil timeout])
  ∧ (∀ ns' name', k8sutil.UPodsDelete ns' name' ∉ calls).
Proof.
  intros name. unfold k8sutil.UpdateAndWaitPod. fold name.
  destruct (k8sutil.got env ns name) as [e|] eqn:Hg.
  { split_and!; [eauto | by intros ? [= ->] | | done |].
    - intros ns' pod'. rewrite list_elem_of_singleton. done.
    - intros ns' name'. rewrite list_elem_of_singleton. done. }
  destruct (k8sutil.updated env ns pod) as [up|e] eqn:Hu.
  2:{ split_and!; [eauto | done | | done |].
      - intros ns' pod'. rewrite !elem_of_cons, elem_of_nil. naive_solver.
      - intros ns' name'. rewrite !elem_of_cons, elem_of_nil. naive_solver. }
  destruct (k8sutil.uwatching env ns (api.Name (api.Meta up))) as [e|] eqn:Hw.
  { split_and!; [eauto | done | | done |].
    - intros ns' pod'. rewrite !elem_of_cons, elem_of_nil. naive_solver.
    - intros ns' name'. rewrite !elem_of_cons, elem_of_nil. naive_solver. }
  split_and!; [eauto | done | | |].
  - intros ns' pod'. rewrite !elem_of_cons, elem_of_nil. naive_solver.
  - intros Hr. exists up. by split_and!.
  - intros ns' name'. rewrite !elem_of_cons, elem_of_nil. naive_solver.
Qed.

(** X10. When the create fails, [CreateAndWaitPod] returns its error
    after that one call: nothing is watched, nothing is stored. *)
Theorem CreateAndWaitPod_create_fails env ns pod timeout s err :
  k8sutil.created env ns pod = inr err →
  k8sutil.CreateAndWaitPod env ns pod timeout s
  = (Some err,
     {| k8sutil.pods := k8sutil.pods s;
        k8sutil.calls := k8sutil.calls s ++ [k8sutil.PodsCreate ns pod] |}).
Proof.
  intros Hc. unfold k8sutil.CreateAndWaitPod, k8sutil.Create, k8sutil.log,
    k8sutil.update, mbind, mret, k8sutil.kube_bind, k8sutil.kube_ret.
  simpl. by rewrite Hc.
Qed.

(** * Further properties of the controller *)

(** ** The event loop *)

(** The statements of the event loop end in the state [handleEvent]
    gives. *)
Lemma handleSteps_last (ev : Event) (m : Machine) :
  default m (last (handleSteps ev m)) = handleEvent ev m.
Proof.
  unfold handleSteps, handleEvent. repeat case_decide; try done;
    by destruct (clusters (ctl m) !! _).
Qed.



Lemma handleEvent_MODIFIED (ev : Event) (m : Machine) :
  Type_ ev = "MODIFIED" →
  handleEvent ev m =
  match clusters (ctl m) !! api.Name (spec.ObjectMeta (Object ev)) with
  | None => m
  | Some p =>
      {| ctl := ctl m; chans := chans m; closed := closed m;
         heap := cluster.Update p (spec.Spec (Object ev)) (heap m) |}
  end.
Proof.
  intros Hty. unfold handleEvent.
  rewrite decide_False by (rewrite Hty; discriminate).
  by rewrite decide_True.
Qed.


(** X16. A MODIFIED event for a name without a runtime changes nothing.
    For a registered name it replaces the spec of that runtime by the
    spec of the event and leaves everything else (the maps, the channels,
    the other runtimes, the number of runtimes) as it was. *)
Theorem MODIFIED_updates_spec (ev : Event) (m : Machine) :
  Type_ ev = "MODIFIED" →
  let name := api.Name (spec.ObjectMeta (Object ev)) in
  let m' := handleEvent ev m in
  (clusters (ctl m) !! name = None → m' = m)
  ∧ (∀ p r, clusters (ctl m) !! name = Some p → heap m !! p = Some r →
       ctl m' = ctl m ∧ chans m' = chans m ∧ closed m' = closed m
       ∧ length (heap m') = length (heap m)
       ∧ heap m' !! p =
           Some {| cluster.name := cluster.name r;
                   cluster.namespace := cluster.namespace r;
                   cluster.spec_ := spec.Spec (Object ev);
                   cluster.stopC := cluster.stopC r;
                   cluster.restored := cluster.restored r;
                   cluster.halted := cluster.halted r |}
       ∧ (∀ q, q ≠ p → heap m' !! q = heap m !! q)).
Proof.
  intros Hty name m'. subst m'. rewrite (handleEvent_MODIFIED _ _ Hty).
  fold name. split.
  - by intros ->.
  - intros p r -> Hr. simpl. unfold cluster.Update. split_and!; try done.
    + by rewrite length_alter.
    + by rewrite list_lookup_alter_eq, Hr.
    + intros q Hq. by rewrite list_lookup_alter_ne.
Qed.


(** ** The bookkeeping invariant *)

Lemma registered_ok_register (m : Machine) (name : string) (r : cluster.Cluster) :
  registered_ok m →
  cluster.name r = name → cluster.halted r = false → cluster.stopC r = chans m →
  registered_ok
    {| ctl := {| Config_ := Config_ (ctl m);
                 clusters := <[name := length (heap m)]> (clusters (ctl m));
                 stopChMap := <[name := chans m]> (stopChMap (ctl m)) |};
       chans := S (chans m); closed := closed m; heap := heap m ++ [r] |}.
Proof.
  intros (Hc & Hs & Hi) Hname Hh Hch. split_and!; simpl.
  - intros n p. rewrite lookup_insert. case_decide as Hn.
    + intros [= <-]. subst n. exists r.
      rewrite lookup_app_r, Nat.sub_diag by done.
      rewrite lookup_insert_eq. by rewrite Hch.
    + intros Hp. destruct (Hc n p Hp) as (r' & Hr' & ? & ? & ?).
      exists r'. rewrite lookup_insert_ne by done.
      split_and!; try done. by apply lookup_app_l_Some.
  - intros n ch. rewrite lookup_insert. case_decide.
    + intros [= <-]. lia.
    + intros Hn. apply Hs in Hn. lia.
  - intros n1 n2 ch. rewrite !lookup_insert.
    repeat case_decide; subst; try done.
    + intros [= <-] Hn. apply Hs in Hn. lia.
    + intros Hn [= <-]. apply Hs in Hn. lia.
    + apply Hi.
Qed.

Lemma registered_ok_handleEvent (ev : Event) (m : Machine) :
  registered_ok m → registered_ok (handleEvent ev m).
Proof.
  intros Hok. unfold handleEvent.
  set (name := api.Name (spec.ObjectMeta (Object ev))).
  case_decide as Ha.
  { by apply registered_ok_register. }
  case_decide as Hm.
  { destruct (clusters (ctl m) !! name) as [p|] eqn:Hp; [|done].
    destruct Hok as (Hc & Hs & Hi). split_and!; simpl; [|done|done].
    intros n q Hq. destruct (Hc n q Hq) as (r & Hr & ? & ? & ?).
    unfold cluster.Update. destruct (decide (q = p)) as [->|Hne].
    - eexists. rewrite list_lookup_alter_eq, Hr. simpl. by split_and!.
    - exists r. rewrite list_lookup_alter_ne by done. by split_and!. }
  case_decide as Hd; [|done].
  destruct (clusters (ctl m) !! name) as [p|] eqn:Hp; [|done].
  destruct Hok as (Hc & Hs & Hi). split_and!; simpl; [|done|done].
  intros n q. rewrite lookup_delete. case_decide as Hn; [done|].
  intros Hq. destruct (Hc n q Hq) as (r & Hr & Hrn & ? & ?).
  destruct (Hc name p Hp) as (r0 & Hr0 & Hr0n & _).
  assert (q ≠ p) by (intros ->; congruence).
  exists r. unfold cluster.Delete. rewrite list_lookup_alter_ne by done.
  by split_and!.
Qed.

Lemma registered_ok_restoreItem (m : Machine) (item : spec.NatsCluster) :
  registered_ok m → registered_ok (restoreItem m item).
Proof. intros Hok. by apply registered_ok_register. Qed.

Lemma registered_ok_events (evs : list Event) (m : Machine) :
  registered_ok m → registered_ok (foldl (λ m ev, handleEvent ev m) m evs).
Proof.
  revert m. induction evs as [|ev evs IH]; intros m Hok; [done|].
  simpl. by apply IH, registered_ok_handleEvent.
Qed.

Lemma registered_ok_items (items : list spec.NatsCluster) (m : Machine) :
  registered_ok m → registered_ok (foldl restoreItem m items).
Proof.
  revert m. induction items as [|item items IH]; intros m Hok; [done|].
  simpl. by apply IH, registered_ok_restoreItem.
Qed.



Lemma items_closed (items : list spec.NatsCluster) (m : Machine) :
  closed (foldl restoreItem m items) = closed m.
Proof.
  revert m. induction items as [|item items IH]; intros m; [done|].
  simpl. by rewrite IH.
Qed.

Lemma items_stopChMap (items : list spec.NatsCluster) (m : Machine) n :
  is_Some (stopChMap (ctl m) !! n) →
  is_Some (stopChMap (ctl (foldl restoreItem m items)) !! n).
Proof.
  revert m. induction items as [|item items IH]; intros m Hn; [done|].
  simpl. apply IH. simpl. rewrite lookup_insert. case_decide; [eauto | done].
Qed.

(** ** Stop channels *)







(** With an orphan among the runtimes the deferred function does not
    end. *)
Lemma orphan_blocks (m : Machine) (r : cluster.Cluster) :
  r ∈ heap m → orphan m r = true → ∀ m', deferred m ≠ Done m'.
Proof.
  intros Hr Ho m'. unfold orphan in Ho.
  apply andb_true_iff in Ho as [Ho Himg]. apply andb_true_iff in Ho as [Hh Hcl].
  apply negb_true_iff in Hh. apply bool_decide_eq_true in Hcl, Himg.
  unfold deferred, closeStopChannels. case_decide; [|done].
  unfold waitEnds. case_bool_decide as Hall; [|done]. simpl in Hall.
  rewrite Forall_forall in Hall. destruct (Hall r Hr) as [Hh'|Hin].
  - congruence.
  - apply elem_of_union in Hin as [?|?]; done.
Qed.

(** ** Initialisation *)

Section InitProperties.
Context `{Json}.

Lemma Errorf_create_TPR (err : error) :
  Errorf "Failed to create TPR: %v" [ArgS (Error err)]
  = ErrorString ("Failed to create TPR: " +:+ Error err).
Proof.
  unfold Errorf.
  change (Sprintf "Failed to create TPR: %v" [ArgS (Error err)])
    with ("Failed to create TPR: " +:+ Error err +:+ EmptyString).
  by rewrite string_app_nil_r.
Qed.

Lemma createTPR_calls (a : InitAnswer) :
  (IListClusters ∉ (createTPR a).1) ∧ (∀ n, ISleep n ∉ (createTPR a).1).
Proof.
  unfold createTPR. destruct (tprCreate a); simpl;
    rewrite ?not_elem_of_cons; split; try intros n;
    rewrite ?not_elem_of_cons; split_and!; try done; apply not_elem_of_nil.
Qed.

Lemma initResource_outcome (a : InitAnswer) (m : Machine) :
  let '(calls, r, m') := initResource a m in
  (IListClusters ∈ calls
   ↔ ∃ err, (createTPR a).2 = Some err
            ∧ k8sutil.IsKubernetesResourceAlreadyExistError err = true)
  ∧ ((createTPR a).2 = None → r = inl "0" ∧ m' = m)
  ∧ (∀ err, (createTPR a).2 = Some err →
       k8sutil.IsKubernetesResourceAlreadyExistError err = false →
       r = inr (ErrorString ("Failed to create TPR: " +:+ Error err)) ∧ m' = m)
  ∧ (∀ err, r = inr err → m' = m)
  ∧ (∀ n, ISleep n ∉ calls).
Proof.
  unfold initResource.
  pose proof (createTPR_calls a) as [Hl Hs].
  destruct (createTPR a) as [calls [err|]] eqn:Hc; simpl in *.
  - destruct (k8sutil.IsKubernetesResourceAlreadyExistError err) eqn:He.
    + unfold findAllClusters.
      assert (Hin : IListClusters ∈ calls ++ [IListClusters]).
      { apply elem_of_app. right. by apply list_elem_of_singleton. }
      assert (Hsl : ∀ n, ISleep n ∉ calls ++ [IListClusters]).
      { intros n. rewrite elem_of_app, list_elem_of_singleton. naive_solver. }
      destruct (listClusters a) as [body|e]; [destruct (decodeClusterList body)|];
        (split_and!;
         [split; [intros _; by exists err | done]
         | done
         | intros ? [= <-] ?; congruence
         | by intros ?
         | done]).
    + split_and!; [| done | | done | done].
      * split; [done | intros (e & [= ->] & ?); congruence].
      * intros e [= <-] _. by rewrite Errorf_create_TPR.
  - split_and!; [| done | done | done | done].
    split; [done | by intros (e & ? & ?)].
Qed.

(** X12. One attempt of [initResource]. The clusters are listed exactly
    when registering the resource definition reports AlreadyExists, and
    then the attempt ends as the list does. When the definition was
    registered and became ready, the watch version is 0 and the
    controller is unchanged. Any other failure of the registration is
    returned as [Failed to create TPR: <error>]. An attempt that ends in
    an error leaves the controller unchanged. *)
Theorem initResource_cases (a : InitAnswer) (m : Machine) :
  (IListClusters ∈ (initResource a m).1.1
   ↔ ∃ err, (createTPR a).2 = Some err
            ∧ k8sutil.IsKubernetesResourceAlreadyExistError err = true)
  ∧ (IListClusters ∈ (initResource a m).1.1 →
       ((initResource a m).1.2, (initResource a m).2) = findAllClusters a m)
  ∧ ((createTPR a).2 = None →
       (initResource a m).1.2 = inl "0" ∧ (initResource a m).2 = m)
  ∧ (∀ err, (createTPR a).2 = Some err →
       k8sutil.IsKubernetesResourceAlreadyExistError err = false →
       (initResource a m).1.2
       = inr (ErrorString ("Failed to create TPR: " +:+ Error err))
       ∧ (initResource a m).2 = m)
  ∧ (∀ err, (initResource a m).1.2 = inr err → (initResource a m).2 = m).
Proof.
  pose proof (initResource_outcome a m) as Ho.
  assert (Hlist : IListClusters ∈ (initResource a m).1.1 →
    ((initResource a m).1.2, (initResource a m).2) = findAllClusters a m).
  { unfold initResource in *.
    pose proof (createTPR_calls a) as [Hl _].
    destruct (createTPR a) as [calls [err|]]; simpl in *; [|done].
    destruct (k8sutil.IsKubernetesResourceAlreadyExistError err); simpl; [|done].
    by destruct (findAllClusters a m). }
  destruct (initResource a m) as [[calls r] m']. simpl in *.
  destruct Ho as (H1 & H2 & H3 & H4 & _). by split_and!.
Qed.

Lemma initResource_no_sleep (a : InitAnswer) (m : Machine) :
  filter (λ c, c = ISleep initRetryWaitTime) (initResource a m).1.1 = [].
Proof.
  pose proof (initResource_outcome a m) as Hc.
  destruct (initResource a m) as [[calls r] m']. simpl.
  destruct Hc as (_ & _ & _ & _ & Hs).
  induction calls as [|c calls IH]; [done|].
  rewrite filter_cons. case_decide as Hc.
  - subst c. destruct (Hs initRetryWaitTime). apply elem_of_cons. by left.
  - apply IH. intros n Hn. apply (Hs n). apply elem_of_cons. by right.
Qed.

(** X13. The retry loop. After attempts that all fail, the first attempt
    that succeeds decides: the loop ends with its watch version and its
    controller, having slept the retry time of 30 seconds once per failed
    attempt, and later answers are not used. When every attempt fails
    the loop is still retrying and the controller is unchanged. *)
Theorem initLoop_retries (fails : list InitAnswer) (m : Machine) :
  Forall failing fails →
  (∃ calls, initLoop fails m = (calls, None, m)
            ∧ length (filter (λ c, c = ISleep initRetryWaitTime) calls) = length fails)
  ∧ (∀ a rest calls_a v m',
       initResource a m = (calls_a, inl v, m') →
       ∃ calls,
         initLoop (fails ++ a :: rest) m = (calls, Some v, m')
         ∧ length (filter (λ c, c = ISleep initRetryWaitTime) calls) = length fails).
Proof.
  induction 1 as [|f fails Hf _ IH].
  - split; [by exists []|].
    intros a rest calls_a v m' Ha. simpl. rewrite Ha. exists calls_a.
    split; [done|].
    pose proof (initResource_no_sleep a m) as Hs. rewrite Ha in Hs. simpl in Hs.
    by rewrite Hs.
  - destruct (Hf m) as (cf & ef & Hfm).
    pose proof (initResource_no_sleep f m) as Hs. rewrite Hfm in Hs. simpl in Hs.
    destruct IH as [(calls & Hcalls & Hlen) IH]. split.
    + simpl. rewrite Hfm, Hcalls. eexists. split; [reflexivity|].
      rewrite filter_app, Hs, filter_cons, decide_True by done. simpl.
      by rewrite Hlen.
    + intros a rest calls_a v m' Ha.
      destruct (IH a rest calls_a v m' Ha) as (calls' & Hcalls' & Hlen').
      simpl. rewrite Hfm, Hcalls'. eexists. split; [reflexivity|].
      rewrite filter_app, Hs, filter_cons, decide_True by done. simpl.
      by rewrite Hlen'.
Qed.

Lemma restoreItems_spec (items : list spec.NatsCluster) (m : Machine) :
  let m' := foldl restoreItem m items in
  length (heap m') = (length (heap m) + length items)%nat
  ∧ chans m' = (chans m + length items)%nat
  ∧ (∀ q r, heap m !! q = Some r → heap m' !! q = Some r)
  ∧ (∀ n, n ∉ ((λ item, api.Name (spec.ObjectMeta item)) <$> items) →
       clusters (ctl m') !! n = clusters (ctl m) !! n
       ∧ stopChMap (ctl m') !! n = stopChMap (ctl m) !! n)
  ∧ (∀ item, item ∈ items →
       ∃ p r, clusters (ctl m') !! api.Name (spec.ObjectMeta item) = Some p
              ∧ (length (heap m) ≤ p)%nat
              ∧ heap m' !! p = Some r
              ∧ cluster.name r = api.Name (spec.ObjectMeta item)
              ∧ cluster.restored r = true
              ∧ cluster.halted r = false
              ∧ stopChMap (ctl m') !! api.Name (spec.ObjectMeta item)
                = Some (cluster.stopC r)).
Proof.
  revert m. induction items as [|item items IH]; intros m m'.
  - subst m'. simpl. split_and!; try done; try lia.
    intros item Hin. by apply elem_of_nil in Hin.
  - subst m'. simpl foldl.
    destruct (IH (restoreItem m item)) as (Hlen & Hch & Hold & Hother & Hin).
    set (m1 := restoreItem m item) in *.
    set (m' := foldl restoreItem m1 items) in *.
    assert (Hh1 : heap m1 = heap m ++
      [ {| cluster.name := api.Name (spec.ObjectMeta item);
           cluster.namespace := Namespace (Config_ (ctl m));
           cluster.spec_ := spec.Spec item; cluster.stopC := chans m;
           cluster.restored := true; cluster.halted := false |} ]) by done.
    assert (Hl1 : length (heap m1) = S (length (heap m))).
    { rewrite Hh1, length_app. simpl. lia. }
    split_and!.
    + rewrite Hlen, Hl1. simpl. lia.
    + rewrite Hch. simpl. lia.
    + intros q r Hq. apply Hold. rewrite Hh1. by apply lookup_app_l_Some.
    + intros n Hn. rewrite fmap_cons, not_elem_of_cons in Hn. destruct Hn as [Hn1 Hn2].
      destruct (Hother n Hn2) as [-> ->]. simpl.
      by rewrite !lookup_insert_ne.
    + intros it Hit. apply elem_of_cons in Hit as [->|Hit].
      * destruct (decide (api.Name (spec.ObjectMeta item)
                          ∈ ((λ item, api.Name (spec.ObjectMeta item)) <$> items)))
          as [Hdup|Hnew].
        -- apply list_elem_of_fmap in Hdup as (it' & Heq & Hit').
           destruct (Hin it' Hit') as (p & r & ? & ? & ? & ? & ? & ? & ?).
           exists p, r. rewrite Heq. split_and!; try done. lia.
        -- destruct (Hother _ Hnew) as [Hc Hs]. rewrite Hc, Hs. simpl.
           rewrite !lookup_insert_eq. eexists _, _.
           split_and!; [done | done | | | | |].
           ++ apply Hold. rewrite Hh1. by rewrite lookup_app_r, Nat.sub_diag.
           ++ done.
           ++ done.
           ++ done.
           ++ done.
      * destruct (Hin it Hit) as (p & r & ? & ? & ? & ? & ? & ? & ?).
        exists p, r. split_and!; try done. lia.
Qed.

(** X14. When the list is answered and decodes, [findAllClusters] returns
    the resource version of the list and makes one runtime per item, in
    addition to those that exist. Afterwards every listed name is
    registered to a restored, live runtime of that name made by this call,
    together with the channel that runtime listens on; names that are not
    listed keep their entries, and the runtimes that existed are as
    before. *)
Theorem findAllClusters_registers (a : InitAnswer) (m : Machine) body list :
  listClusters a = inl body →
  decodeClusterList body = inl list →
  let '(r, m') := findAllClusters a m in
  r = inl (ListMeta_ResourceVersion list)
  ∧ length (heap m') = (length (heap m) + length (Items list))%nat
  ∧ (∀ q rt, heap m !! q = Some rt → heap m' !! q = Some rt)
  ∧ (∀ n, n ∉ ((λ item, api.Name (spec.ObjectMeta item)) <$> Items list) →
       clusters (ctl m') !! n = clusters (ctl m) !! n
       ∧ stopChMap (ctl m') !! n = stopChMap (ctl m) !! n)
  ∧ (∀ item, item ∈ Items list →
       ∃ p rt, clusters (ctl m') !! api.Name (spec.ObjectMeta item) = Some p
               ∧ (length (heap m) ≤ p)%nat
               ∧ heap m' !! p = Some rt
               ∧ cluster.name rt = api.Name (spec.ObjectMeta item)
               ∧ cluster.restored rt = true
               ∧ cluster.halted rt = false
               ∧ stopChMap (ctl m') !! api.Name (spec.ObjectMeta item)
                 = Some (cluster.stopC rt)).
Proof.
  intros Hl Hd. unfold findAllClusters. rewrite Hl, Hd.
  destruct (restoreItems_spec (Items list) m) as (? & ? & ? & ? & ?).
  by split_and!.
Qed.

Lemma initResource_preserves (a : InitAnswer) (m : Machine) :
  let m' := (initResource a m).2 in
  (registered_ok m → registered_ok m')
  ∧ closed m' = closed m
  ∧ (∀ n, is_Some (stopChMap (ctl m) !! n) → is_Some (stopChMap (ctl m') !! n)).
Proof.
  unfold initResource. destruct (createTPR a) as [calls [err|]]; simpl; [|done].
  destruct (k8sutil.IsKubernetesResourceAlreadyExistError err); simpl; [|done].
  unfold findAllClusters.
  destruct (listClusters a) as [body|e]; simpl; [|done].
  destruct (decodeClusterList body) as [l|e]; simpl; [|done].
  split_and!.
  - apply registered_ok_items.
  - apply items_closed.
  - intros n. apply items_stopChMap.
Qed.

Lemma initLoop_preserves (answers : list InitAnswer) (m : Machine) :
  let m' := (initLoop answers m).2 in
  (registered_ok m → registered_ok m')
  ∧ closed m' = closed m
  ∧ (∀ n, is_Some (stopChMap (ctl m) !! n) → is_Some (stopChMap (ctl m') !! n)).
Proof.
  revert m. induction answers as [|a answers IH]; intros m; simpl; [done|].
  pose proof (initResource_preserves a m) as Ha.
  destruct (initResource a m) as [[calls r] m1]. simpl in Ha.
  destruct Ha as (Hok & Hcl & Hst).
  destruct r as [v|e]; simpl; [done|].
  specialize (IH m1). destruct (initLoop answers m1) as [[calls' v] m2].
  simpl in *. destruct IH as (Hok' & Hcl' & Hst').
  split_and!; [auto | congruence | auto].
Qed.



(** X15. Initialisation and the event loop keep the bookkeeping of the
    supervisor sound. If, before [Run], every registered name points to a
    runtime of that name on which [Delete] has not been called and which
    was given the channel registered for the name, every registered
    channel has been made and no channel is registered twice, then the
    same holds after the initialisation loop and after each event the
    event loop has handled to the end, whatever the orchestrator answers
    and whatever events arrive. *)
Theorem bookkeeping_stays_sound (answers : list InitAnswer) (evs : list Event)
    (m : Machine) :
  registered_ok m →
  registered_ok (initLoop answers m).2
  ∧ registered_ok (foldl (λ m ev, handleEvent ev m) (initLoop answers m).2 evs).
Proof.
  intros Hok.
  destruct (initLoop_preserves answers m) as (Hok0 & _ & _).
  split; [auto|]. apply registered_ok_events. auto.
Qed.


End InitProperties.

(** ** Other ends of the watch *)

Ltac in_trace :=
  repeat first [rewrite elem_of_app | rewrite elem_of_cons | rewrite elem_of_nil];
  naive_solver.

Section WatchEnds.
Context `{Json}.

Lemma deliveries_only_deliver evs cur a :
  (cur, a) ∈ deliveries evs → ∃ ev, a = ADeliver ev.
Proof. unfold deliveries. rewrite list_elem_of_fmap. naive_solver. Qed.

Lemma monitor_sends v script :
  let '(t, s) := monitor v script in
  match s with
  | Errored err =>
      ∃ t0 cur, t = t0 ++ [(cur, ASendErr err); (cur, ACloseEventCh)]
                ∧ (∀ c e, (c, ASendErr e) ∉ t0)
                ∧ (∀ c, (c, ACloseEventCh) ∉ t0)
  | _ => (∀ c e, (c, ASendErr e) ∉ t) ∧ (∀ c, (c, ACloseEventCh) ∉ t)
  end.
Proof.
  revert v. induction script as [|[resp|err] script IH]; intros v; simpl.
  - split; intros c; [intros e|]; in_trace.
  - case_decide.
    { exists [(v, AWatchClusters v); (v, ACloseBody)], v.
      split_and!; [done | |]; intros c; [intros e|];
        in_trace. }
    destruct (pollLoop_shape v (Body resp)) as (evs & a & e & -> & Ha).
    assert (Hd1 : ∀ c e, (c, ASendErr e) ∉ deliveries evs).
    { intros c e' Hin. by apply deliveries_only_deliver in Hin as [? ?]. }
    assert (Hd2 : ∀ c, (c, ACloseEventCh) ∉ deliveries evs).
    { intros c Hin. by apply deliveries_only_deliver in Hin as [? ?]. }
    destruct e as [|err|msg]; subst a.
    + specialize (IH (cursorAfter v evs)).
      destruct (monitor (cursorAfter v evs) script) as [t' s].
      destruct s as [err| |].
      * destruct IH as (t0 & cur & -> & Hs & Hc).
        exists (((v, AWatchClusters v) :: deliveries evs ++ [(cursorAfter v evs, AEOF)])
                ++ (cursorAfter v evs, ACloseBody) :: t0), cur.
        split_and!.
        -- simpl. f_equal. by rewrite <- !app_assoc.
        -- intros c e. in_trace.
        -- intros c. in_trace.
      * destruct IH as [Hs Hc]. split; intros c; [intros e|];
          in_trace.
      * destruct IH as [Hs Hc]. split; intros c; [intros e|];
          in_trace.
    + exists ((v, AWatchClusters v) :: deliveries evs), (cursorAfter v evs).
      split_and!.
      * simpl. by rewrite <- !app_assoc.
      * intros c e. in_trace.
      * intros c. in_trace.
    + split; intros c; [intros e|];
        in_trace.
  - exists [(v, AWatchClusters v)], v.
    split_and!; [done | |]; intros c; [intros e|];
      in_trace.
Qed.

(** X22. The goroutine sends on the error channel at most once, as its
    last act before closing the event channel: an error found in the
    trace is the error the run ended with; a run that ended with an error
    sent it once, at the end, followed by [close(eventCh)]; and the event
    channel is closed only in a run that ended with an error. *)
Theorem monitor_sends_once v script :
  let t := (monitor v script).1 in
  let s := (monitor v script).2 in
  (∀ c e, (c, ASendErr e) ∈ t → s = Errored e)
  ∧ (∀ c, (c, ACloseEventCh) ∈ t → ∃ err, s = Errored err)
  ∧ (∀ err, s = Errored err →
       ∃ t0 cur, t = t0 ++ [(cur, ASendErr err); (cur, ACloseEventCh)]
                 ∧ (∀ c e, (c, ASendErr e) ∉ t0)
                 ∧ (∀ c, (c, ACloseEventCh) ∉ t0)).
Proof.
  intros t s. subst t s. pose proof (monitor_sends v script) as Hs.
  destruct (monitor v script) as [t [err| |]]; simpl.
  - destruct Hs as (t0 & cur & -> & Hsend & Hclose). split_and!.
    + intros c e Hin. apply elem_of_app in Hin as [Hin|Hin].
      * by destruct (Hsend c e).
      * rewrite !elem_of_cons, elem_of_nil in Hin. naive_solver.
    + eauto.
    + intros ? [= <-]. eauto.
  - destruct Hs as [Hsend Hclose]. split_and!.
    + intros c e Hin. by destruct (Hsend c e).
    + intros c Hin. by destruct (Hclose c).
    + done.
  - destruct Hs as [Hsend Hclose]. split_and!.
    + intros c e Hin. by destruct (Hsend c e).
    + intros c Hin. by destruct (Hclose c).
    + done.
Qed.

(** X18. When, after responses that were all read to their end, a call
    of [WatchClusters] fails, the goroutine sends that error on [errCh]
    and returns, closing [eventCh]; there is no body to close. The call
    asked for the version of the last event delivered, and the events
    delivered are those of the earlier responses. *)
Theorem watch_call_error_is_fatal v answers evss err later :
  Forall2 clean answers evss →
  let v' := cursorAfter v (concat evss) in
  monitor v (answers ++ inr err :: later) =
  (cleanTrace v evss
   ++ [(v', AWatchClusters v'); (v', ASendErr err); (v', ACloseEventCh)],
   Errored err)
  ∧ delivered (monitor v (answers ++ inr err :: later)).1 = concat evss.
Proof.
  intros Hc v'. rewrite (monitor_cleanTrace _ _ _ _ Hc). fold v'. simpl.
  split; [done|].
  rewrite delivered_app, delivered_cleanTrace. simpl. by rewrite app_nil_r.
Qed.

(** X19. When, after responses that were all read to their end, a watch
    is answered with a status code other than 200, the body is closed
    unread, the goroutine sends [Invalid status code: <status>] on
    [errCh] and returns, closing [eventCh]; no frame of that response is
    delivered. *)
Theorem watch_status_code_is_fatal v answers evss resp later :
  Forall2 clean answers evss →
  StatusCode resp ≠ 200 →
  let v' := cursorAfter v (concat evss) in
  let err := ErrorString ("Invalid status code: " +:+ Status_ resp) in
  monitor v (answers ++ inl resp :: later) =
  (cleanTrace v evss
   ++ [(v', AWatchClusters v'); (v', ACloseBody);
       (v', ASendErr err); (v', ACloseEventCh)],
   Errored err)
  ∧ delivered (monitor v (answers ++ inl resp :: later)).1 = concat evss.
Proof.
  intros Hc Hcode v' err. rewrite (monitor_cleanTrace _ _ _ _ Hc). fold v'. simpl.
  rewrite decide_True by done. simpl. split; [done|].
  rewrite delivered_app, delivered_cleanTrace. simpl. by rewrite app_nil_r.
Qed.

(** X20. When the goroutine reaches an ERROR frame whose status decodes
    and has a code other than 410, it ends the process in
    [logger.Fatalf] with the message of the status, as its last act:
    the events of the frames before have been delivered, nothing is sent
    on the error channel and the event channel is not closed. *)
Theorem unexpected_status_exits re st :
  re_Type re = "ERROR" →
  unmarshalStatus (re_Object re) = inl st →
  Code st ≠ StatusGone →
  ∀ v script evs,
    reaches script evs (inl re) →
    let msg := "Unexpected status response from API server: " +:+ Message st in
    (monitor v script).2 = Exited msg
    ∧ delivered (monitor v script).1 = evs
    ∧ (∃ t0, (monitor v script).1 = t0 ++ [(cursorAfter v evs, AFatalf msg)]
             ∧ delivered t0 = evs)
    ∧ (∀ cur e, (cur, ASendErr e) ∉ (monitor v script).1)
    ∧ (∀ cur, (cur, ACloseEventCh) ∉ (monitor v script).1).
Proof.
  intros Hty Hst Hcode v script evs Hr msg.
  assert (Hmsg : Sprintf "Unexpected status response from API server: %v"
                   [ArgS (Message st)] = msg).
  { change (Sprintf "Unexpected status response from API server: %v" [ArgS (Message st)])
      with ("Unexpected status response from API server: " +:+ Message st +:+ EmptyString).
    by rewrite string_app_nil_r. }
  assert (Hloop : ∀ v' rest,
    pollLoop v' (inl re :: rest) = ([(v', AFatalf msg)], v', Exit msg)).
  { assert (Hpoll : pollEvent (inl re) = PollStatus st).
    { simpl. rewrite decide_True by done. by rewrite Hst. }
    intros v' rest. cbn -[pollEvent Sprintf]. rewrite Hpoll.
    rewrite decide_False by done. by rewrite Hmsg. }
  destruct (monitor_reaches v _ _ _ Hr) as (t0 & rest & later & Hdel & Heq).
  rewrite Hloop in Heq.
  pose proof (monitor_sends v script) as Hsend.
  rewrite Heq in Hsend |- *. simpl.
  rewrite delivered_app, Hdel. simpl. rewrite app_nil_r.
  destruct Hsend as [Hs Hc].
  split_and!; [done | done | eauto | done | done].
Qed.

Lemma pollLoop_reads v body :
  ∃ ds rest, body = ds ++ rest ∧ decodeAs ds (delivered (pollLoop v body).1.1).
Proof.
  revert v. induction body as [|d body IH]; intros v.
  - exists [], []. split; [done | constructor].
  - simpl. destruct (pollEvent d) as [ev|st|err] eqn:Hd.
    + destruct (IH (api.ResourceVersion (spec.ObjectMeta (Object ev))))
        as (ds & rest & -> & Hds).
      destruct (pollLoop _ (ds ++ rest)) as [[t v'] e]. simpl in *.
      exists (d :: ds), rest. split; [done|]. by constructor.
    + exists [], (d :: body). split; [done|]. case_decide; constructor.
    + exists [], (d :: body). split; [done|]. case_decide; constructor.
Qed.

(** X23. The events delivered are decodings of frames of the responses,
    in the order of the stream and each frame at most once: they decode
    a subsequence of the frames of the script. *)
Theorem delivered_in_stream_order v script :
  ∃ ds, ds `sublist_of` frames script
        ∧ decodeAs ds (delivered (monitor v script).1).
Proof.
  revert v. induction script as [|[resp|err] script IH]; intros v.
  - exists []. split; [apply sublist_nil_l | constructor].
  - unfold frames. rewrite bind_cons. fold (frames script). simpl.
    case_decide.
    { exists []. split; [apply sublist_nil_l | constructor]. }
    destruct (pollLoop_reads v (Body resp)) as (ds & rest & Hbody & Hds).
    destruct (pollLoop v (Body resp)) as [[t v'] e]. simpl in Hds.
    destruct e as [|e|msg].
    + destruct (IH v') as (ds' & Hsub & Hds').
      destruct (monitor v' script) as [t' s]. simpl in *.
      exists (ds ++ ds'). split.
      * rewrite Hbody. apply sublist_app; [|done].
        by apply sublist_inserts_r.
      * rewrite delivered_app. simpl. by apply Forall2_app.
    + simpl. exists ds. split.
      * rewrite Hbody. by do 2 apply sublist_inserts_r.
      * rewrite delivered_app. simpl. by rewrite app_nil_r.
    + simpl. exists ds. split; [|done].
      rewrite Hbody. by do 2 apply sublist_inserts_r.
  - exists []. split; [apply sublist_nil_l | constructor].
Qed.

End WatchEnds.

(** ** The further properties at the sample inputs *)

Lemma SetNATSVersion_GetNATSVersion_witness :
  ∃ pod', k8sutil.SetNATSVersion sample.pod "0.9.4" = Ret pod'
          ∧ k8sutil.GetNATSVersion pod' = "0.9.4".
Proof.
  destruct (SetNATSVersion_GetNATSVersion sample.pod "0.9.4"
              {[ "nats.version" := "0.9.2" ]} eq_refl)
    as (pod' & Hset & Hget & _).
  exists pod'. split; assumption.
Defined.

Lemma NATSVersion_nil_annotations_witness :
  k8sutil.SetNATSVersion sample.bare "0.9.4"
  = Panic (ErrorString "assignment to entry in nil map")
  ∧ k8sutil.GetNATSVersion sample.bare = EmptyString.
Proof. exact (NATSVersion_nil_annotations sample.bare "0.9.4" eq_refl). Defined.

Lemma sample_pending :
  Forall (λ a, ∃ resp, a = inl resp ∧ k8sutil.StatusCode resp = 404)
    [sample.notServed; sample.notServed].
Proof. repeat constructor; eexists; split; reflexivity. Defined.

Lemma WaitTPRReady_outcome_witness :
  (k8sutil.WaitTPRReady "http://127.0.0.1:8080" "default"
     [sample.notServed; sample.notServed; inl sample.served; sample.notServed]).2
  = None.
Proof.
  destruct (WaitTPRReady_outcome "http://127.0.0.1:8080" "default" _ sample_pending)
    as (_ & Hok & _).
  change [sample.notServed; sample.notServed; inl sample.served; sample.notServed]
    with ([sample.notServed; sample.notServed] ++ inl sample.served :: [sample.notServed]).
  by rewrite (Hok sample.served [sample.notServed] eq_refl).
Defined.

Lemma CreateAndWaitPod_create_fails_witness :
  (k8sutil.CreateAndWaitPod sample.taken "default" sample.pod 60 sample.server).1
  = Some (StatusError 409 "AlreadyExists" "pods demo-x7k2p already exists").
Proof.
  by rewrite (CreateAndWaitPod_create_fails sample.taken "default" sample.pod 60
                sample.server _ eq_refl).
Defined.

Lemma service_ports_target_themselves_witness :
  Forall (λ sp, api.TargetPort sp = api.IntVal (api.Port sp))
    (api.Ports (api.ServiceSpec_ (k8sutil.makeServiceSpec 4222 "demo"))
     ++ api.Ports (api.ServiceSpec_ (k8sutil.makeMgmtServiceSpec 6222 8222 "demo"))).
Proof.
  apply (service_ports_target_themselves 4222 6222 8222 "demo").
  intros p Hp. rewrite !elem_of_cons, elem_of_nil in Hp.
  destruct Hp as [->|[->|[->|[]]]]; lia.
Defined.

Lemma sample_refused : @failing sample.json sample.refused.
Proof. intros m. eexists _, _. reflexivity. Defined.

Lemma initLoop_retries_witness :
  ∃ calls,
    @initLoop sample.json [sample.refused; sample.refused; sample.registered; sample.refused]
      sample.machine
    = (calls, Some "0", sample.machine)
    ∧ length (filter (λ c, c = ISleep initRetryWaitTime) calls) = 2%nat.
Proof.
  destruct (@initLoop_retries sample.json [sample.refused; sample.refused] sample.machine)
    as [_ Hok].
  { repeat constructor; apply sample_refused. }
  exact (Hok sample.registered [sample.refused] _ "0" sample.machine eq_refl).
Defined.

Lemma findAllClusters_registers_witness :
  (@findAllClusters sample.listing sample.existing sample.machine).1 = inl "7"
  ∧ length (heap (@findAllClusters sample.listing sample.existing sample.machine).2)
    = 2%nat.
Proof.
  pose proof (@findAllClusters_registers sample.listing sample.existing sample.machine
                "a,b@7" _ eq_refl eq_refl) as Hw.
  destruct (@findAllClusters sample.listing sample.existing sample.machine) as [r m'].
  destruct Hw as (Hr & Hlen & _). split; assumption.
Defined.

Lemma sample_machine_ok : registered_ok sample.machine.
Proof.
  split_and!.
  - intros name p Hp.
    change ((∅ : gmap string nat) !! name = Some p) in Hp.
    by rewrite lookup_empty in Hp.
  - intros name ch Hch.
    change ((∅ : gmap string nat) !! name = Some ch) in Hch.
    by rewrite lookup_empty in Hch.
  - intros n1 n2 ch Hch.
    change ((∅ : gmap string nat) !! n1 = Some ch) in Hch.
    by rewrite lookup_empty in Hch.
Defined.



Lemma bookkeeping_stays_sound_witness :
  registered_ok
    (foldl (λ m ev, handleEvent ev m)
       (@initLoop sample.listing [sample.refused; sample.existing] sample.machine).2
       [sample.added1; sample.added2; sample.deleted1]).
Proof.
  exact (proj2 (@bookkeeping_stays_sound sample.listing
                  [sample.refused; sample.existing]
                  [sample.added1; sample.added2; sample.deleted1]
                  sample.machine sample_machine_ok)).
Defined.

Lemma MODIFIED_updates_spec_witness :
  cluster.spec_ <$>
    heap (handleEvent sample.modified2 (handleEvent sample.added1 sample.machine)) !! 0%nat
  = Some sample.spec2.
Proof.
  destruct (MODIFIED_updates_spec sample.modified2
              (handleEvent sample.added1 sample.machine) eq_refl) as [_ Hm].
  destruct (Hm 0%nat _ eq_refl eq_refl) as (_ & _ & _ & _ & Hp & _).
  by rewrite Hp.
Defined.


Lemma sample_clean_first :
  Forall2 (@clean sample.json) [sample.ok [sample.frame "ADDED" "a@1"]] [[sample.added1]].
Proof.
  repeat constructor. eexists. split_and!; [reflexivity | reflexivity |].
  by repeat constructor.
Defined.

Lemma watch_call_error_is_fatal_witness :
  (@monitor sample.json "0" (watches sample.resetWorld)).2
  = Errored (ErrorString "connection reset by peer")
  ∧ delivered (@monitor sample.json "0" (watches sample.resetWorld)).1
    = [sample.added1].
Proof.
  destruct (@watch_call_error_is_fatal sample.json "0" _ _
              (ErrorString "connection reset by peer") [sample.ok []]
              sample_clean_first) as [Hm Hd].
  split; [exact (f_equal snd Hm) | exact Hd].
Defined.

Lemma watch_status_code_is_fatal_witness :
  (@monitor sample.json "0" (watches sample.unavailableWorld)).2
  = Errored (ErrorString "Invalid status code: 503 Service Unavailable")
  ∧ delivered (@monitor sample.json "0" (watches sample.unavailableWorld)).1
    = [sample.added1].
Proof.
  assert (Hcode : StatusCode sample.unavailable ≠ 200) by discriminate.
  destruct (@watch_status_code_is_fatal sample.json "0" _ _ sample.unavailable
              [sample.ok []] sample_clean_first Hcode) as [Hm Hd].
  split; [exact (f_equal snd Hm) | exact Hd].
Defined.

Lemma sample_reaches_forbidden :
  @reaches sample.json (watches sample.forbiddenWorld)
    [sample.added1] (sample.frame "ERROR" "forbidden").
Proof.
  eapply (reaches_here _ _ [sample.frame "ADDED" "a@1"]);
    [reflexivity | reflexivity |].
  by repeat constructor.
Defined.

Lemma unexpected_status_exits_witness :
  (@monitor sample.json "0" (watches sample.forbiddenWorld)).2
  = Exited "Unexpected status response from API server: forbidden"
  ∧ delivered (@monitor sample.json "0" (watches sample.forbiddenWorld)).1
    = [sample.added1].
Proof.
  assert (Hcode : (403 : Z) ≠ StatusGone) by discriminate.
  destruct (@unexpected_status_exits sample.json
              {| re_Type := "ERROR"; re_Object := "forbidden" |}
              {| Code := 403; Message := "forbidden" |}
              eq_refl eq_refl Hcode
              "0" (watches sample.forbiddenWorld) [sample.added1]
              sample_reaches_forbidden) as (Hr & Hd & _).
  split; assumption.
Defined.
